(** * meeting-transcriber: the transcript-to-markdown renderer

    A shallow embedding of [convert_to_markdown], the function that turns the
    JSON produced by AWS Transcribe into a speaker-attributed markdown
    document.  The repository holds two copies of it:

    - [src/meeting_transcriber/transcription/markdown_converter.py]
    - [src/meeting_transcriber/aws_transcribe.py]

    which differ only in the guard of the two places where a finished run is
    written out.  The embedding follows the Python text: dictionary accesses
    that may raise are computations in an exception monad, the loop over the
    items threads the five loop variables as a record, and the
    [speaker_timeline] dictionary is an insertion-ordered association list.

    Modelling decisions.

    - [transcript_data] is typed along the shape of an AWS Transcribe result
      with every key optional: an absent key is [None], so that [d["k"]]
      raises [KeyError] and [d.get("k", default)] falls back on [default].
    - [float(v)] is modelled by its outcome.  A value that [float] converts
      is the number it denotes, held as an exact rational, so that
      comparisons, [//] and [%] are exact; infinities and NaN are left out.
      A string that is no numeral makes [float] raise [ValueError], a value
      of another type (JSON [null], a list, an object) [TypeError].
    - The result of the function is the text written to [transcript.md]; the
      path arithmetic around it is not modelled.

    Around the renderer, the development also covers what the entry points
    do with a transcript ([cli.py], [mcp.py]: the speaker count, the length
    of the text, the preview, the default job name) and the function that
    runs the transcription job ([transcription/aws_transcribe.py], with its
    wrapper in [cli.py] and its older copy in [aws_transcribe.py]), whose
    calls to S3 and AWS Transcribe are recorded in order. *)

From Stdlib Require Import ZArith QArith Qround String Ascii List Bool Lia.
From Stdlib Require Import DecimalString DecimalPos DecimalZ.
Import ListNotations.

Local Open Scope list_scope.
Local Open Scope string_scope.

(** ** Python exceptions and the exception monad *)

Inductive exn : Type :=
| KeyError (key : string)
| IndexError
| ValueError
| TypeError.

Inductive result (A : Type) : Type :=
| Ok (a : A)
| Raise (e : exn).

Arguments Ok {A} a.
Arguments Raise {A} e.

Definition bind {A B : Type} (m : result A) (k : A -> result B) : result B :=
  match m with
  | Ok a => k a
  | Raise e => Raise e
  end.

Notation "x <- m ;; k" := (bind m (fun x => k))
  (at level 61, m at next level, right associativity).

Definition raises {A : Type} (m : result A) : Prop :=
  exists e, m = Raise e.

(** ** The input: an AWS Transcribe result *)

(** The value stored under a [start_time] or [end_time] key, seen through
    [float]. *)
Inductive timestamp : Type :=
| Seconds (q : Q)
| NoNumeral
| NoNumber.

Record alternative : Type := {
  content : option string
}.

Record item : Type := {
  item_type : option string;
  start_time : option timestamp;
  end_time : option timestamp;
  alternatives : option (list alternative)
}.

Record segment : Type := {
  seg_start_time : option timestamp;
  seg_end_time : option timestamp;
  speaker_label : option string
}.

Record speaker_labels_t : Type := {
  segments : option (list segment)
}.

Record results_t : Type := {
  items : option (list item);
  speaker_labels : option speaker_labels_t
}.

Record transcript_data_t : Type := {
  results : option results_t
}.

(** ** Python primitives used by the renderer *)

(** [d[key]] on a dictionary. *)
Definition getitem {A : Type} (key : string) (field : option A) : result A :=
  match field with
  | Some v => Ok v
  | None => Raise (KeyError key)
  end.

(** [d.get(key, default)]. *)
Definition get {A : Type} (field : option A) (default : A) : A :=
  match field with
  | Some v => v
  | None => default
  end.

(** [l[0]] on a list. *)
Definition index0 {A : Type} (l : list A) : result A :=
  match l with
  | x :: _ => Ok x
  | [] => Raise IndexError
  end.

(** [float(v)]. *)
Definition float (v : timestamp) : result Q :=
  match v with
  | Seconds q => Ok q
  | NoNumeral => Raise ValueError
  | NoNumber => Raise TypeError
  end.

(** [bool(l)] for a list. *)
Definition nonempty {A : Type} (l : list A) : bool :=
  match l with
  | [] => false
  | _ :: _ => true
  end.

(** [bool(s)] for a value that is [None] or a string. *)
Definition truthy (s : option string) : bool :=
  match s with
  | None => false
  | Some s => negb (s =? "")
  end.

(** [a != b] between values that are [None] or a string. *)
Definition speaker_neb (a b : option string) : bool :=
  match a, b with
  | None, None => false
  | Some x, Some y => negb (x =? y)
  | _, _ => true
  end.

(** [sep.join(l)]. *)
Fixpoint join (sep : string) (l : list string) : string :=
  match l with
  | [] => ""
  | [x] => x
  | x :: rest => x ++ sep ++ join sep rest
  end.

(** [l[-1] += s] on a non-empty list of strings (the empty list is left
    alone: the source guards the statement with [if current_text]). *)
Fixpoint append_to_last (l : list string) (s : string) : list string :=
  match l with
  | [] => []
  | [x] => [x ++ s]
  | x :: rest => x :: append_to_last rest s
  end.

(** [x // 60] and [x % 60], which raise [TypeError] when [x] is [None]. *)
Definition floordiv60 (x : option Q) : result Q :=
  match x with
  | Some q => Ok (inject_Z (Qfloor (q / 60)))
  | None => Raise TypeError
  end.

Definition mod60 (x : option Q) : result Q :=
  match x with
  | Some q => Ok (q - 60 * inject_Z (Qfloor (q / 60)))%Q
  | None => Raise TypeError
  end.

(** [int(x)] on a float: truncation towards zero. *)
Definition int (x : Q) : Z := Z.quot (Qnum x) (Zpos (Qden x)).

(** [str(n)] for an integer. *)
Definition str_int (n : Z) : string :=
  NilZero.string_of_int (Z.to_int n).

(** [f"{n:02d}"]: the decimal numeral (sign included) padded on the left
    with zeros, after the sign, to a width of at least two characters. *)
Definition format_02d (n : Z) : string :=
  if (0 <=? n)%Z && (n <? 10)%Z then "0" ++ str_int n else str_int n.

(** [f"{v}"] for a value that is [None] or a string. *)
Definition format_speaker (s : option string) : string :=
  match s with
  | None => "None"
  | Some s => s
  end.

Definition newline : string := String (ascii_of_nat 10) "".

(** ** The speaker timeline

    [speaker_timeline] is a Python dictionary keyed by the pair
    [(start_time, end_time)].  A dictionary iterates in the order in which
    its keys were first inserted, and storing under a key that is already
    there replaces the value and leaves the key where it is. *)

Definition timeline : Type := list ((Q * Q) * string).

Definition key_eqb (k1 k2 : Q * Q) : bool :=
  Qeq_bool (fst k1) (fst k2) && Qeq_bool (snd k1) (snd k2).

(** [d[k] = v]. *)
Fixpoint dict_set (d : timeline) (k : Q * Q) (v : string) : timeline :=
  match d with
  | [] => [(k, v)]
  | (k', v') :: d' =>
      if key_eqb k' k then (k', v) :: d' else (k', v') :: dict_set d' k v
  end.

(** Lines 16-21: the loop that fills [speaker_timeline]. *)
Fixpoint build_timeline (segs : list segment) (speaker_timeline : timeline)
  : result timeline :=
  match segs with
  | [] => Ok speaker_timeline
  | seg :: rest =>
      start_time <- (v <- getitem "start_time" (seg_start_time seg) ;; float v) ;;
      end_time <- (v <- getitem "end_time" (seg_end_time seg) ;; float v) ;;
      speaker <- getitem "speaker_label" (speaker_label seg) ;;
      build_timeline rest (dict_set speaker_timeline (start_time, end_time) speaker)
  end.

(** Line 39: the chained comparison [seg_start <= item_start <= seg_end]. *)
Definition between (seg_start item_start seg_end : Q) : bool :=
  Qle_bool seg_start item_start && Qle_bool item_start seg_end.

(** Lines 37-41: the first entry of the timeline, in iteration order, whose
    closed interval contains [item_start]; [None] when there is none. *)
Fixpoint find_speaker (speaker_timeline : timeline) (item_start : Q)
  : option string :=
  match speaker_timeline with
  | [] => None
  | ((seg_start, seg_end), speaker) :: rest =>
      if between seg_start item_start seg_end
      then Some speaker
      else find_speaker rest item_start
  end.

(** ** The loop state *)

Record state : Type := {
  markdown_lines : list string;
  current_speaker : option string;
  current_text : list string;
  current_start : option Q;
  current_end : option Q
}.

(** Lines 24-28. *)
Definition initial_state : state := {|
  markdown_lines := [];
  current_speaker := None;
  current_text := [];
  current_start := None;
  current_end := None
|}.

(** Lines 52-59 (and 82-89): the body of the two places that write a run
    out.  It returns the new value of [markdown_lines]. *)
Definition write_run (st : state) : result (list string) :=
  let text := join " " (current_text st) in
  start_min <- (x <- floordiv60 (current_start st) ;; Ok (int x)) ;;
  start_sec <- (x <- mod60 (current_start st) ;; Ok (int x)) ;;
  end_min <- (x <- floordiv60 (current_end st) ;; Ok (int x)) ;;
  end_sec <- (x <- mod60 (current_end st) ;; Ok (int x)) ;;
  let line :=
    "[speaker: " ++ format_speaker (current_speaker st) ++ "]["
    ++ format_02d start_min ++ ":" ++ format_02d start_sec ++ "-"
    ++ format_02d end_min ++ ":" ++ format_02d end_sec ++ "]: " ++ text in
  Ok (markdown_lines st ++ [line])%list.

Definition is_not_None {A : Type} (x : option A) : bool :=
  match x with
  | Some _ => true
  | None => false
  end.

(** Lines 46-59 and 76-89 of [markdown_converter.py]. *)
Definition flush (st : state) : result (list string) :=
  if truthy (current_speaker st)
     && nonempty (current_text st)
     && is_not_None (current_start st)
     && is_not_None (current_end st)
  then write_run st
  else Ok (markdown_lines st).

(** Lines 93-94: what is written to the file. *)
Definition document (lines : list string) : string :=
  "# Meeting Transcript" ++ newline ++ newline
  ++ join (newline ++ newline) lines.

(** ** The renderer, for a given way of writing a run out *)

Section Renderer.

Variable flush_run : state -> result (list string).

(** Lines 31-73: the body of the loop over the items. *)
Definition process_item (speaker_timeline : timeline) (st : state) (it : item)
  : result state :=
  ty <- getitem "type" (item_type it) ;;
  if ty =? "pronunciation" then
    item_start <- (v <- getitem "start_time" (start_time it) ;; float v) ;;
    item_end <- (v <- getitem "end_time" (end_time it) ;; float v) ;;
    word <- (alts <- getitem "alternatives" (alternatives it) ;;
             alt <- index0 alts ;;
             getitem "content" (content alt)) ;;
    let item_speaker := find_speaker speaker_timeline item_start in
    if speaker_neb item_speaker (current_speaker st) then
      lines <- flush_run st ;;
      Ok {| markdown_lines := lines;
            current_speaker := item_speaker;
            current_text := [word];
            current_start := Some item_start;
            current_end := Some item_end |}
    else
      Ok {| markdown_lines := markdown_lines st;
            current_speaker := current_speaker st;
            current_text := (current_text st ++ [word])%list;
            current_start := current_start st;
            current_end := Some item_end |}
  else if ty =? "punctuation" then
    if nonempty (current_text st) then
      mark <- (alts <- getitem "alternatives" (alternatives it) ;;
               alt <- index0 alts ;;
               getitem "content" (content alt)) ;;
      Ok {| markdown_lines := markdown_lines st;
            current_speaker := current_speaker st;
            current_text := append_to_last (current_text st) mark;
            current_start := current_start st;
            current_end := current_end st |}
    else Ok st
  else Ok st.

(** Line 30: [for item in items]. *)
Fixpoint for_items (speaker_timeline : timeline) (st : state)
  (its : list item) : result state :=
  match its with
  | [] => Ok st
  | it :: rest =>
      st' <- process_item speaker_timeline st it ;;
      for_items speaker_timeline st' rest
  end.

(** The whole function; its value is the text of [transcript.md]. *)
Definition render (transcript_data : transcript_data_t) : result string :=
  its <- (r <- getitem "results" (results transcript_data) ;;
          getitem "items" (items r)) ;;
  labels <- (r <- getitem "results" (results transcript_data) ;;
             Ok (get (speaker_labels r) {| segments := None |})) ;;
  let segs := get (segments labels) [] in
  speaker_timeline <- build_timeline segs [] ;;
  st <- for_items speaker_timeline initial_state its ;;
  lines <- flush_run st ;;
  Ok (document lines).

End Renderer.

(** [convert_to_markdown] of [transcription/markdown_converter.py]. *)
Definition convert_to_markdown : transcript_data_t -> result string :=
  render flush.

(** [convert_to_markdown] of [aws_transcribe.py]: the same text, except that
    the two guards do not test [current_start] and [current_end]. *)
Module AwsTranscribe.

Definition flush (st : state) : result (list string) :=
  if truthy (current_speaker st) && nonempty (current_text st)
  then write_run st
  else Ok (markdown_lines st).

Definition convert_to_markdown : transcript_data_t -> result string :=
  render flush.

End AwsTranscribe.

(** ** Well-formed input, as the tests of the repository build it *)

Definition Word (text : string) (t_start t_end : Q) : item := {|
  item_type := Some "pronunciation";
  start_time := Some (Seconds t_start);
  end_time := Some (Seconds t_end);
  alternatives := Some [ {| content := Some text |} ]
|}.

Definition Punctuation (text : string) : item := {|
  item_type := Some "punctuation";
  start_time := None;
  end_time := None;
  alternatives := Some [ {| content := Some text |} ]
|}.

Definition Segment (label : string) (t_start t_end : Q) : segment := {|
  seg_start_time := Some (Seconds t_start);
  seg_end_time := Some (Seconds t_end);
  speaker_label := Some label
|}.

Definition transcript (its : list item) (segs : list segment)
  : transcript_data_t :=
  {| results := Some {| items := Some its;
                        speaker_labels := Some {| segments := Some segs |} |} |}.

(** The data model of the specification: an item is a word with its two
    times or a punctuation mark, a diarization segment is a label with a
    closed interval. *)

Inductive TranscriptItem : Type :=
| TWord (text : string) (t_start t_end : Q)
| TPunctuation (text : string).

Record SpeakerSegment : Type := {
  label : string;
  interval_start : Q;
  interval_end : Q
}.

Definition encode_item (t : TranscriptItem) : item :=
  match t with
  | TWord text t_start t_end => Word text t_start t_end
  | TPunctuation text => Punctuation text
  end.

Definition encode_segment (s : SpeakerSegment) : segment :=
  Segment (label s) (interval_start s) (interval_end s).

Definition interval (s : SpeakerSegment) : Q * Q :=
  (interval_start s, interval_end s).

(** The dictionary that lines 16-21 build from well-formed segments. *)
Definition timeline_of (segs : list SpeakerSegment) : timeline :=
  fold_left (fun d s => dict_set d (interval s) (label s)) segs [].

(** ** Notions used to state the properties *)

(** The invariant that makes the two copies agree: a speaker is only ever
    stored together with a start and an end time. *)
Definition timed (st : state) : Prop :=
  current_speaker st = None \/
  (exists s e, current_start st = Some s /\ current_end st = Some e).

(** A [start_time] or [end_time] field that is absent or that [float] does
    not convert. *)
Definition not_numeric (field : option timestamp) : Prop :=
  field = None \/ field = Some NoNumeral \/ field = Some NoNumber.

(** A pronunciation item without a numeric start or end time, or with an
    empty list of alternatives. *)
Definition malformed_word (it : item) : Prop :=
  item_type it = Some "pronunciation"
  /\ (not_numeric (start_time it)
      \/ not_numeric (end_time it)
      \/ alternatives it = Some []).

(** The key of the first entry of the timeline whose interval contains
    [t]. *)
Fixpoint first_key (d : timeline) (t : Q) : option (Q * Q) :=
  match d with
  | [] => None
  | (k, _) :: rest =>
      if between (fst k) t (snd k) then Some k else first_key rest t
  end.

(** The first segment, in input order, whose closed interval contains [t]. *)
Definition first_containing (segs : list SpeakerSegment) (t : Q)
  : option SpeakerSegment :=
  find (fun s => between (interval_start s) t (interval_end s)) segs.

(** The label of the last segment, in input order, whose interval is [k]. *)
Fixpoint last_with_interval (segs : list SpeakerSegment) (k : Q * Q)
  : option string :=
  match segs with
  | [] => None
  | s :: rest =>
      match last_with_interval rest k with
      | Some l => Some l
      | None => if key_eqb (interval s) k then Some (label s) else None
      end
  end.

(** The speaker of a word that starts at [t]: the first segment containing
    [t] fixes the interval, the last segment with that interval fixes the
    label. *)
Definition resolved_speaker (segs : list SpeakerSegment) (t : Q)
  : option string :=
  match first_containing segs t with
  | Some s => last_with_interval segs (interval s)
  | None => None
  end.

(** The two fields of a time stamp [MM:SS]: the whole minutes of a time in
    seconds and the whole seconds left over. *)
Definition minutes (q : Q) : Z := Qfloor (q / 60).

Definition seconds (q : Q) : Z :=
  Qfloor (q - 60 * inject_Z (Qfloor (q / 60))).



Definition clock (q : Q) : string :=
  format_02d (minutes q) ++ ":" ++ format_02d (seconds q).

(** *** Runs

    The document described without the loop, along the SpeakerRun of the
    specification (a maximal stretch of adjacent words with one speaker,
    from the start of its first word to the end of its last): every word
    takes the punctuation that follows it, adjacent words with the same
    speaker are merged into runs, and every run that has a speaker gives
    one line. *)

Record run : Type := {
  run_speaker : option string;
  run_start : Q;
  run_end : Q;
  run_words : list string
}.

(** The punctuation marks in front of the first word, concatenated, and
    the words, each with the marks that follow it. *)
Fixpoint glue (toks : list TranscriptItem) : string * list (string * Q * Q) :=
  match toks with
  | [] => ("", [])
  | TPunctuation mark :: rest =>
      let (pending, ws) := glue rest in (mark ++ pending, ws)
  | TWord w s e :: rest =>
      let (pending, ws) := glue rest in ("", (w ++ pending, s, e) :: ws)
  end.

(** Two adjacent runs as one. *)
Definition run_app (r g : run) : run := {|
  run_speaker := run_speaker r;
  run_start := run_start r;
  run_end := run_end g;
  run_words := run_words r ++ run_words g
|}.

(** A run in front of a list of runs: merged into the first of them when
    the speakers are equal. *)
Definition merge (r : run) (rs : list run) : list run :=
  match rs with
  | [] => [r]
  | g :: rest =>
      if speaker_neb (run_speaker r) (run_speaker g)
      then r :: g :: rest
      else run_app r g :: rest
  end.

Section Runs.

(** The speaker of a word, from its start time. *)
Variable speaker_of : Q -> option string.

Definition single (w : string * Q * Q) : run :=
  let '(text, s, e) := w in
  {| run_speaker := speaker_of s;
     run_start := s;
     run_end := e;
     run_words := [text] |}.

Fixpoint runs (ws : list (string * Q * Q)) : list run :=
  match ws with
  | [] => []
  | w :: rest => merge (single w) (runs rest)
  end.

End Runs.

Definition run_line (r : run) : string :=
  "[speaker: " ++ format_speaker (run_speaker r) ++ "]["
  ++ clock (run_start r) ++ "-" ++ clock (run_end r) ++ "]: "
  ++ join " " (run_words r).

(** The line of a run, if it gets one. *)
Definition emit (r : run) : list string :=
  if truthy (run_speaker r) && nonempty (run_words r)
  then [run_line r]
  else [].

Definition transcript_lines (tl : timeline) (toks : list TranscriptItem)
  : list string :=
  flat_map emit (runs (find_speaker tl) (snd (glue toks))).

(** The run that a loop state holds.  The times of a state count only when
    the run has a speaker. *)
Definition holds (st : state) (r : run) : Prop :=
  current_speaker st = run_speaker r
  /\ current_text st = run_words r
  /\ (truthy (run_speaker r) = true ->
      current_start st = Some (run_start r)
      /\ current_end st = Some (run_end r)).

Definition with_marks (r : run) (marks : string) : run := {|
  run_speaker := run_speaker r;
  run_start := run_start r;
  run_end := run_end r;
  run_words := append_to_last (run_words r) marks
|}.

(** *** Accepted input

    The checks that the function makes on its way through the input: every
    segment is read in full before the first item; an item is read up to
    what its type needs, a punctuation item only once a word has been
    accumulated. *)






(** The exception that reading a segment raises, if any: the first of its
    three accesses that fails. *)
Definition segment_error (seg : segment) : option exn :=
  match v <- getitem "start_time" (seg_start_time seg) ;; float v with
  | Raise e => Some e
  | Ok _ =>
      match v <- getitem "end_time" (seg_end_time seg) ;; float v with
      | Raise e => Some e
      | Ok _ =>
          match getitem "speaker_label" (speaker_label seg) with
          | Raise e => Some e
          | Ok _ => None
          end
      end
  end.

(** *** Blocks of words

    A block is a non-empty stretch of adjacent words: its first word and the
    words after it. *)

Definition block : Type := (string * Q * Q) * list (string * Q * Q).

Definition block_words (b : block) : list (string * Q * Q) :=
  fst b :: snd b.

(** The run of a block: the speaker and the start of its first word, the end
    of its last word, the texts of its words in order. *)
Definition block_run (speaker_of : Q -> option string) (b : block) : run := {|
  run_speaker := speaker_of (snd (fst (fst b)));
  run_start := snd (fst (fst b));
  run_end := snd (List.last (snd b) (fst b));
  run_words := map (fun w => fst (fst w)) (block_words b)
|}.

Fixpoint adjacent_differ (speakers : list (option string)) : Prop :=
  match speakers with
  | a :: (b :: _) as rest => a <> b /\ adjacent_differ rest
  | _ => True
  end.

(** ** [cli.py] and [mcp.py]: what is reported about a transcript

    After the transcription, [main] of [cli.py] (and of the older
    [aws_transcribe.py]) writes the markdown file, reads the full text and
    counts the speakers, and prints the start of the markdown file; the tools
    of [mcp.py] return the same two figures.  The [results] object has one
    more key for this, [transcripts]. *)



(** [len({segment.get("speaker_label", "")
          for segment in speaker_labels.get("segments", [])})] with
    [speaker_labels = results.get("speaker_labels", {})]. *)
Definition counted_labels (r : results_t) : list string :=
  map (fun seg => get (speaker_label seg) "")
      (get (segments (get (speaker_labels r) {| segments := None |})) []).

Definition speakers_count (r : results_t) : nat :=
  List.length (nodup string_dec (counted_labels r)).


(** [s.split(sep)] for a separator of one character. *)
Fixpoint split (sep : ascii) (s : string) : list string :=
  match s with
  | "" => [""]
  | String c rest =>
      if Ascii.eqb c sep then "" :: split sep rest
      else match split sep rest with
           | piece :: pieces => String c piece :: pieces
           | [] => [String c ""]
           end
  end.






(** [cli.py], lines 153-155 (and [mcp.py], lines 100-102 and 194-196):
    [if not job_name: job_name = f"transcribe-{stem}-{timestamp}"], with
    [stem] the stem of the file and [timestamp = int(time.time())]. *)
Definition default_job_name (job_name : option string) (stem : string)
  (timestamp : Z) : string :=
  match job_name with
  | Some given =>
      if given =? "" then "transcribe-" ++ stem ++ "-" ++ str_int timestamp
      else given
  | None => "transcribe-" ++ stem ++ "-" ++ str_int timestamp
  end.

(** The runs that get a line. *)
Definition emitted_runs (segs : list SpeakerSegment)
  (toks : list TranscriptItem) : list run :=
  filter (fun r => truthy (run_speaker r))
         (runs (find_speaker (timeline_of segs)) (snd (glue toks))).

(** [c in s]. *)
Fixpoint has_char (c : ascii) (s : string) : bool :=
  match s with
  | "" => false
  | String c' rest => Ascii.eqb c' c || has_char c rest
  end.

Definition is_digit (c : ascii) : bool :=
  (48 <=? nat_of_ascii c)%nat && (nat_of_ascii c <=? 57)%nat.


(** ** [transcription/aws_transcribe.py]: running a transcription job

    [transcribe_audio] talks to S3 and to AWS Transcribe.  Its calls are
    recorded in order; they are taken to return, and what the service answers
    is given from outside: the successive responses to
    [get_transcription_job], and the content of the result that is
    downloaded.  The loop that waits for the job has no bound, so a run over
    a finite list of responses that never reaches a final status is still
    [Polling].  A path is kept as its directory and its file name. *)

Record path : Type := {
  path_parent : string;
  path_name : string
}.

Record transcription_job : Type := {
  TranscriptionJobStatus : option string;
  FailureReason : option string
}.

Record job_response : Type := {
  TranscriptionJob : option transcription_job
}.

Inductive call : Type :=
| upload_file (Filename : path) (Bucket Key : string)
| start_transcription_job (TranscriptionJobName LanguageCode MediaFileUri : string)
    (ShowSpeakerLabels : bool) (MaxSpeakerLabels : Z)
    (OutputBucketName OutputKey : string)
| get_transcription_job (TranscriptionJobName : string)
| sleep (seconds : Z)
| download_file (Bucket Key : string) (Filename : path)
| delete_object (Bucket Key : string)
| json_load (file : path)
| json_dump (file : path).

Inductive failure : Type :=
| PythonError (e : exn)
| RuntimeError (message : string)
| Abort.

Inductive outcome (A : Type) : Type :=
| Returned (a : A)
| Failed (f : failure)
| Polling.

Arguments Returned {A} a.
Arguments Failed {A} f.
Arguments Polling {A}.

(** [job_status["TranscriptionJob"]["TranscriptionJobStatus"]]. *)
Definition job_state (job_status : job_response) : result string :=
  job <- getitem "TranscriptionJob" (TranscriptionJob job_status) ;;
  getitem "TranscriptionJobStatus" (TranscriptionJobStatus job).

(** [job_status["TranscriptionJob"].get("FailureReason", "Unknown error")],
    reached once the status has been read. *)
Definition failure_reason (job_status : job_response) : string :=
  match TranscriptionJob job_status with
  | Some job => get (FailureReason job) "Unknown error"
  | None => "Unknown error"
  end.

(** Lines 42-56: the loop that waits for the job. *)
Fixpoint wait_for_completion (job_name : string) (responses : list job_response)
  : list call * outcome unit :=
  match responses with
  | [] => ([], Polling)
  | job_status :: later =>
      match job_state job_status with
      | Raise e => ([get_transcription_job job_name], Failed (PythonError e))
      | Ok status =>
          if status =? "COMPLETED" then
            ([get_transcription_job job_name], Returned tt)
          else if status =? "FAILED" then
            ([get_transcription_job job_name],
             Failed (RuntimeError
                       ("Transcription failed: " ++ failure_reason job_status)))
          else
            let (calls, result) := wait_for_completion job_name later in
            (get_transcription_job job_name :: sleep 10 :: calls, result)
      end
  end.

Definition s3_key (job_name : string) (audio_file : path) : string :=
  "audio/" ++ job_name ++ "/" ++ path_name audio_file.

Definition s3_uri (bucket job_name : string) (audio_file : path) : string :=
  "s3://" ++ bucket ++ "/" ++ s3_key job_name audio_file.

Definition output_key (job_name : string) : string :=
  "transcripts/" ++ job_name ++ ".json".

(** [audio_file.parent / "transcript.json"]. *)
Definition transcript_json (audio_file : path) : path :=
  {| path_parent := path_parent audio_file; path_name := "transcript.json" |}.

(** Lines 13-68 of [transcription/aws_transcribe.py]. *)
Definition transcribe_audio {A : Type} (audio_file : path)
  (bucket job_name : string) (max_speakers : Z)
  (responses : list job_response) (downloaded : A)
  : list call * outcome A :=
  let started :=
    [ upload_file audio_file bucket (s3_key job_name audio_file);
      start_transcription_job job_name "en-US"
        (s3_uri bucket job_name audio_file) true max_speakers
        bucket (output_key job_name) ] in
  match wait_for_completion job_name responses with
  | (polls, Returned _) =>
      let output_file := transcript_json audio_file in
      ((started ++ polls
        ++ [ download_file bucket (output_key job_name) output_file;
             delete_object bucket (s3_key job_name audio_file);
             delete_object bucket (output_key job_name);
             json_load output_file ])%list,
       Returned downloaded)
  | (polls, Failed f) => ((started ++ polls)%list, Failed f)
  | (polls, Polling) => ((started ++ polls)%list, Polling)
  end.

(** [cli.py], lines 44-96: [transcribe_audio_cli].  Every exception leaves
    it as [click.Abort]. *)
Definition transcribe_audio_cli {A : Type} (audio_file : path)
  (bucket job_name : string) (max_speakers : Z)
  (responses : list job_response) (downloaded : A)
  : list call * outcome path :=
  let first :=
    upload_file audio_file bucket
      ("audio/" ++ job_name ++ "/" ++ path_name audio_file) in
  match transcribe_audio audio_file bucket job_name max_speakers
          responses downloaded with
  | (calls, Returned transcript_data) =>
      let output_file := transcript_json audio_file in
      (first :: (calls ++ [json_dump output_file])%list, Returned output_file)
  | (calls, Failed _) => (first :: calls, Failed Abort)
  | (calls, Polling) => (first :: calls, Polling)
  end.



(** The calls that create or remove something in the bucket. *)
Definition removes (c : call) : bool :=
  match c with
  | delete_object _ _ => true
  | _ => false
  end.

Definition fetches (c : call) : bool :=
  match c with
  | download_file _ _ _ => true
  | _ => false
  end.

(** A response that keeps the loop waiting: it has a status, and this is
    neither [COMPLETED] nor [FAILED]. *)
Definition in_progress (job_status : job_response) : Prop :=
  exists status,
    job_state job_status = Ok status
    /\ status <> "COMPLETED" /\ status <> "FAILED".

(** The calls of one more round of the loop. *)
Definition poll_again (job_name : string) (waiting : list job_response)
  : list call :=
  flat_map (fun _ => [get_transcription_job job_name; sleep 10]) waiting.

(** * Properties *)

(** ** The exception monad *)

Lemma bind_raises {A B : Type} (m : result A) (k : A -> result B) :
  raises m -> raises (bind m k).
Proof.
  intros [e He]. exists e. rewrite He. reflexivity.
Qed.

Lemma bind_raises_cont {A B : Type} (m : result A) (k : A -> result B) :
  (forall a, m = Ok a -> raises (k a)) -> raises (bind m k).
Proof.
  intros H. destruct m as [a | e]; simpl.
  - apply H. reflexivity.
  - exists e. reflexivity.
Qed.

(** ** Writing a run out *)

Lemma write_run_Some (st : state) (s e : Q) :
  current_start st = Some s -> current_end st = Some e ->
  exists line, write_run st = Ok (markdown_lines st ++ [line])%list.
Proof.
  intros Hs He. unfold write_run. rewrite Hs, He. simpl.
  eexists. reflexivity.
Qed.

(** The guarded copy never raises. *)
Lemma flush_total (st : state) : exists lines, flush st = Ok lines.
Proof.
  unfold flush.
  destruct (current_start st) as [s |] eqn:Hs;
    destruct (current_end st) as [e |] eqn:He; simpl;
    rewrite ?andb_false_r; try (eexists; reflexivity).
  destruct (truthy (current_speaker st) && nonempty (current_text st)); simpl.
  - destruct (write_run_Some st s e Hs He) as [line Hl].
    rewrite Hl. eexists. reflexivity.
  - eexists. reflexivity.
Qed.

Lemma flush_agree (st : state) :
  timed st -> AwsTranscribe.flush st = flush st.
Proof.
  unfold AwsTranscribe.flush, flush. intros [Hn | (s & e & Hs & He)].
  - rewrite Hn. reflexivity.
  - rewrite Hs, He. simpl. rewrite !andb_true_r. reflexivity.
Qed.

Lemma timed_initial : timed initial_state.
Proof. left. reflexivity. Qed.

Lemma process_item_agree (tl : timeline) (st : state) (it : item) :
  timed st ->
  process_item AwsTranscribe.flush tl st it = process_item flush tl st it.
Proof.
  intros Ht. unfold process_item. rewrite (flush_agree st Ht). reflexivity.
Qed.

Lemma process_item_timed (tl : timeline) (st st' : state) (it : item) :
  timed st -> process_item flush tl st it = Ok st' -> timed st'.
Proof.
  intros Ht. unfold process_item.
  destruct (getitem "type" (item_type it)) as [ty |]; simpl; [| discriminate].
  destruct (ty =? "pronunciation").
  - destruct (v <- getitem "start_time" (start_time it) ;; float v)
      as [item_start |]; simpl; [| discriminate].
    destruct (v <- getitem "end_time" (end_time it) ;; float v)
      as [item_end |]; simpl; [| discriminate].
    destruct (alts <- getitem "alternatives" (alternatives it) ;;
              alt <- index0 alts ;; getitem "content" (content alt))
      as [word |]; simpl; [| discriminate].
    destruct (speaker_neb _ _).
    + destruct (flush st) as [lines |]; simpl; [| discriminate].
      intros [= <-]. right. simpl. eauto.
    + intros [= <-]. destruct Ht as [Hn | (s & e & Hs & _)].
      * left. exact Hn.
      * right. simpl. eauto.
  - destruct (ty =? "punctuation"); [| intros [= <-]; exact Ht].
    destruct (nonempty (current_text st)); [| intros [= <-]; exact Ht].
    destruct (alts <- getitem "alternatives" (alternatives it) ;;
              alt <- index0 alts ;; getitem "content" (content alt))
      as [mark |]; simpl; [| discriminate].
    intros [= <-]. exact Ht.
Qed.

Lemma for_items_agree (tl : timeline) (its : list item) (st : state) :
  timed st ->
  for_items AwsTranscribe.flush tl st its = for_items flush tl st its.
Proof.
  revert st. induction its as [| it rest IH]; intros st Ht; simpl.
  - reflexivity.
  - rewrite (process_item_agree tl st it Ht).
    destruct (process_item flush tl st it) as [st' |] eqn:Hp; simpl.
    + apply IH. exact (process_item_timed tl st st' it Ht Hp).
    + reflexivity.
Qed.

Lemma for_items_timed (tl : timeline) (its : list item) (st st' : state) :
  timed st -> for_items flush tl st its = Ok st' -> timed st'.
Proof.
  revert st. induction its as [| it rest IH]; intros st Ht; simpl.
  - intros [= <-]. exact Ht.
  - destruct (process_item flush tl st it) as [st1 |] eqn:Hp; simpl.
    + apply IH. exact (process_item_timed tl st st1 it Ht Hp).
    + discriminate.
Qed.

(** C10: the two copies of [convert_to_markdown] agree on every input: they
    raise the same exception or write the same text.  In particular, when
    either succeeds, so does the other, with a byte-identical document. *)
Theorem copies_equivalent (transcript_data : transcript_data_t) :
  AwsTranscribe.convert_to_markdown transcript_data
  = convert_to_markdown transcript_data.
Proof.
  unfold AwsTranscribe.convert_to_markdown, convert_to_markdown, render.
  destruct (r <- getitem "results" (results transcript_data) ;;
            getitem "items" (items r)) as [its |]; simpl; [| reflexivity].
  destruct (r <- getitem "results" (results transcript_data) ;;
            Ok (get (speaker_labels r) {| segments := None |}))
    as [labels |]; simpl; [| reflexivity].
  destruct (build_timeline (get (segments labels) []) []) as [tl |];
    simpl; [| reflexivity].
  rewrite (for_items_agree tl its initial_state timed_initial).
  destruct (for_items flush tl initial_state its) as [st |] eqn:Hl; simpl.
  - rewrite (flush_agree st (for_items_timed tl its _ st timed_initial Hl)).
    reflexivity.
  - reflexivity.
Qed.

(** ** Well-formed input never raises *)

Lemma build_timeline_encode (segs : list SpeakerSegment) (d : timeline) :
  build_timeline (map encode_segment segs) d
  = Ok (fold_left (fun d s => dict_set d (interval s) (label s)) segs d).
Proof.
  revert d. induction segs as [| s rest IH]; intros d; simpl.
  - reflexivity.
  - apply IH.
Qed.

Lemma process_word (tl : timeline) (st : state) (w : string) (s e : Q) :
  process_item flush tl st (Word w s e)
  = if speaker_neb (find_speaker tl s) (current_speaker st)
    then lines <- flush st ;;
         Ok {| markdown_lines := lines;
               current_speaker := find_speaker tl s;
               current_text := [w];
               current_start := Some s;
               current_end := Some e |}
    else Ok {| markdown_lines := markdown_lines st;
               current_speaker := current_speaker st;
               current_text := (current_text st ++ [w])%list;
               current_start := current_start st;
               current_end := Some e |}.
Proof. reflexivity. Qed.

Lemma process_punctuation (tl : timeline) (st : state) (p : string) :
  process_item flush tl st (Punctuation p)
  = if nonempty (current_text st)
    then Ok {| markdown_lines := markdown_lines st;
               current_speaker := current_speaker st;
               current_text := append_to_last (current_text st) p;
               current_start := current_start st;
               current_end := current_end st |}
    else Ok st.
Proof. reflexivity. Qed.

(** C3: with no items, the document is the title line and one blank line,
    whatever the diarization segments are, and also when the
    [speaker_labels] or the [segments] key is absent.  (Whatever is stored
    under [speaker_labels], a document that is produced for no items is this
    one.) *)
Theorem empty_items_title_only (segs : list SpeakerSegment) :
  let title_only := ("# Meeting Transcript" ++ newline ++ newline)%string in
  convert_to_markdown (transcript [] (map encode_segment segs))
  = Ok title_only
  /\ convert_to_markdown
       {| results := Some {| items := Some [];
                             speaker_labels := Some {| segments := None |} |} |}
     = Ok title_only
  /\ convert_to_markdown
       {| results := Some {| items := Some []; speaker_labels := None |} |}
     = Ok title_only
  /\ (forall (labels : option speaker_labels_t) (doc : string),
         convert_to_markdown
           {| results := Some {| items := Some [];
                                 speaker_labels := labels |} |} = Ok doc ->
         doc = title_only).
Proof.
  simpl. split; [| split; [| split]]; try reflexivity.
  - unfold convert_to_markdown, render, transcript. simpl.
    rewrite build_timeline_encode. reflexivity.
  - intros labels doc. unfold convert_to_markdown, render. simpl.
    destruct (build_timeline _ []) as [tl |]; simpl.
    + intros [= <-]. reflexivity.
    + discriminate.
Qed.

Lemma empty_items_title_only_witness :
  document [] = ("# Meeting Transcript" ++ newline ++ newline)%string.
Proof.
  destruct (empty_items_title_only
              [ {| label := "spk_0"; interval_start := 0; interval_end := 2 |} ])
    as (_ & _ & _ & H).
  apply (H (Some {| segments := Some [Segment "spk_0" 0 2] |}) (document [])).
  reflexivity.
Defined.

(** ** Malformed words *)

Lemma float_not_numeric (key : string) (field : option timestamp) :
  not_numeric field -> raises (v <- getitem key field ;; float v).
Proof.
  intros [-> | [-> | ->]]; simpl; eexists; reflexivity.
Qed.

Lemma process_malformed_raises (tl : timeline) (st : state) (it : item) :
  malformed_word it -> raises (process_item flush tl st it).
Proof.
  intros [Hty Hbad]. unfold process_item. rewrite Hty. simpl.
  destruct Hbad as [Hs | [He | Ha]].
  - apply bind_raises. apply float_not_numeric. exact Hs.
  - apply bind_raises_cont. intros item_start _.
    apply bind_raises. apply float_not_numeric. exact He.
  - apply bind_raises_cont. intros item_start _.
    apply bind_raises_cont. intros item_end _.
    apply bind_raises. rewrite Ha. simpl. eexists. reflexivity.
Qed.

Lemma for_items_malformed_raises (tl : timeline) (its : list item) (it : item)
  (st : state) :
  In it its -> malformed_word it -> raises (for_items flush tl st its).
Proof.
  intros Hin Hbad. revert st.
  induction its as [| hd rest IH]; intros st; simpl.
  - destruct Hin.
  - destruct Hin as [-> | Hin].
    + apply bind_raises. apply process_malformed_raises. exact Hbad.
    + apply bind_raises_cont. intros st' _. apply IH. exact Hin.
Qed.

(** C8: an input whose items contain a pronunciation item without a numeric
    [start_time] or [end_time], or with an empty [alternatives] list, makes
    the renderer raise: no document is produced for it. *)
Theorem malformed_word_raises (transcript_data : transcript_data_t)
  (r : results_t) (its : list item) (it : item) :
  results transcript_data = Some r ->
  items r = Some its ->
  In it its ->
  malformed_word it ->
  raises (convert_to_markdown transcript_data)
  /\ forall doc, convert_to_markdown transcript_data <> Ok doc.
Proof.
  intros Hr Hi Hin Hbad.
  assert (Hraise : raises (convert_to_markdown transcript_data)).
  { unfold convert_to_markdown, render. rewrite Hr. simpl. rewrite Hi. simpl.
    apply bind_raises_cont. intros tl _.
    apply bind_raises. apply for_items_malformed_raises with (it := it).
    - exact Hin.
    - exact Hbad. }
  split; [exact Hraise |].
  intros doc Hdoc. destruct Hraise as [e He]. rewrite He in Hdoc.
  discriminate Hdoc.
Qed.

Lemma malformed_word_raises_witness :
  let bad := {| item_type := Some "pronunciation";
                start_time := Some (Seconds 1);
                end_time := None;
                alternatives := Some [ {| content := Some "world" |} ] |} in
  let input := transcript [Word "Hello" 0 1; bad] [Segment "spk_0" 0 2] in
  raises (convert_to_markdown input)
  /\ forall doc, convert_to_markdown input <> Ok doc.
Proof.
  intros bad input.
  apply (malformed_word_raises input
           {| items := Some [Word "Hello" 0 1; bad];
              speaker_labels := Some {| segments := Some [Segment "spk_0" 0 2] |} |}
           [Word "Hello" 0 1; bad] bad).
  - reflexivity.
  - reflexivity.
  - simpl. right. left. reflexivity.
  - split; [reflexivity |]. right. left. left. reflexivity.
Defined.

(** ** The speaker timeline *)

Section Timeline.

Local Open Scope Q_scope.

Lemma between_iff (a t b : Q) : between a t b = true <-> a <= t /\ t <= b.
Proof.
  unfold between. rewrite andb_true_iff, !Qle_bool_iff. reflexivity.
Qed.

Lemma key_eqb_iff (k1 k2 : Q * Q) :
  key_eqb k1 k2 = true <-> fst k1 == fst k2 /\ snd k1 == snd k2.
Proof.
  unfold key_eqb. rewrite andb_true_iff, !Qeq_bool_iff. reflexivity.
Qed.

Lemma key_eqb_refl (k : Q * Q) : key_eqb k k = true.
Proof. apply key_eqb_iff. split; reflexivity. Qed.

Lemma key_eqb_sym (k1 k2 : Q * Q) : key_eqb k1 k2 = key_eqb k2 k1.
Proof.
  destruct (key_eqb k1 k2) eqn:H12; destruct (key_eqb k2 k1) eqn:H21;
    try reflexivity.
  - apply key_eqb_iff in H12. destruct H12 as [H1 H2].
    assert (H : key_eqb k2 k1 = true)
      by (apply key_eqb_iff; split; symmetry; assumption).
    congruence.
  - apply key_eqb_iff in H21. destruct H21 as [H1 H2].
    assert (H : key_eqb k1 k2 = true)
      by (apply key_eqb_iff; split; symmetry; assumption).
    congruence.
Qed.

(** Equal keys contain the same times. *)
Lemma between_key_eqb (k1 k2 : Q * Q) (t : Q) :
  key_eqb k1 k2 = true ->
  between (fst k1) t (snd k1) = between (fst k2) t (snd k2).
Proof.
  intros H. apply key_eqb_iff in H. destruct H as [H1 H2].
  destruct (between (fst k1) t (snd k1)) eqn:B1;
    destruct (between (fst k2) t (snd k2)) eqn:B2; try reflexivity.
  - apply between_iff in B1.
    assert (B : between (fst k2) t (snd k2) = true)
      by (apply between_iff; rewrite <- H1, <- H2; exact B1).
    congruence.
  - apply between_iff in B2.
    assert (B : between (fst k1) t (snd k1) = true)
      by (apply between_iff; rewrite H1, H2; exact B2).
    congruence.
Qed.

Lemma first_key_between (d : timeline) (t : Q) (k : Q * Q) :
  first_key d t = Some k -> between (fst k) t (snd k) = true.
Proof.
  induction d as [| [k' v'] rest IH]; simpl.
  - discriminate.
  - destruct (between (fst k') t (snd k')) eqn:B.
    + intros [= <-]. exact B.
    + exact IH.
Qed.

Lemma first_key_None (d : timeline) (t : Q) :
  first_key d t = None -> find_speaker d t = None.
Proof.
  induction d as [| [[a b] v'] rest IH]; simpl.
  - reflexivity.
  - destruct (between a t b); [discriminate | exact IH].
Qed.

(** Storing under a key keeps the iteration order of the keys already
    there; a new key goes last. *)
Lemma first_key_dict_set (d : timeline) (k : Q * Q) (v : string) (t : Q) :
  first_key (dict_set d k v) t
  = match first_key d t with
    | Some k' => Some k'
    | None => if between (fst k) t (snd k) then Some k else None
    end.
Proof.
  induction d as [| [k' v'] rest IH]; simpl.
  - reflexivity.
  - destruct (key_eqb k' k) eqn:E; simpl.
    + destruct (between (fst k') t (snd k')) eqn:B; [reflexivity |].
      rewrite <- (between_key_eqb k' k t E), B.
      destruct (first_key rest t); reflexivity.
    + destruct (between (fst k') t (snd k')); [reflexivity | exact IH].
Qed.

Lemma find_speaker_dict_set (d : timeline) (k : Q * Q) (v : string) (t : Q) :
  find_speaker (dict_set d k v) t
  = match first_key d t with
    | Some k' => if key_eqb k' k then Some v else find_speaker d t
    | None => if between (fst k) t (snd k) then Some v else None
    end.
Proof.
  induction d as [| [[a b] v'] rest IH]; simpl.
  - destruct k as [ka kb]. reflexivity.
  - destruct (key_eqb (a, b) k) eqn:E; simpl.
    + destruct (between a t b) eqn:B; [rewrite E; reflexivity |].
      pose proof (between_key_eqb (a, b) k t E) as Hk. simpl in Hk.
      rewrite <- Hk, B.
      destruct (first_key rest t) as [k2 |] eqn:F.
      * destruct (key_eqb k2 k) eqn:E2; [| reflexivity].
        apply first_key_between in F.
        rewrite (between_key_eqb k2 k t E2), <- Hk, B in F. discriminate F.
      * apply first_key_None. exact F.
    + destruct (between a t b) eqn:B; [rewrite E; reflexivity | exact IH].
Qed.

Lemma timeline_of_snoc (segs : list SpeakerSegment) (s : SpeakerSegment) :
  timeline_of (segs ++ [s])
  = dict_set (timeline_of segs) (interval s) (label s).
Proof.
  unfold timeline_of. rewrite fold_left_app. reflexivity.
Qed.

Lemma first_containing_snoc (segs : list SpeakerSegment) (s : SpeakerSegment)
  (t : Q) :
  first_containing (segs ++ [s]) t
  = match first_containing segs t with
    | Some x => Some x
    | None => if between (interval_start s) t (interval_end s)
              then Some s else None
    end.
Proof.
  unfold first_containing.
  induction segs as [| x rest IH]; simpl.
  - reflexivity.
  - destruct (between (interval_start x) t (interval_end x));
      [reflexivity | exact IH].
Qed.

Lemma last_with_interval_snoc (segs : list SpeakerSegment)
  (s : SpeakerSegment) (k : Q * Q) :
  last_with_interval (segs ++ [s]) k
  = if key_eqb (interval s) k then Some (label s)
    else last_with_interval segs k.
Proof.
  induction segs as [| x rest IH]; simpl.
  - reflexivity.
  - rewrite IH. destruct (key_eqb (interval s) k); reflexivity.
Qed.

(** What the dictionary does to the lookup. *)
Lemma find_speaker_timeline_of (segs : list SpeakerSegment) (t : Q) :
  first_key (timeline_of segs) t
  = option_map interval (first_containing segs t)
  /\ find_speaker (timeline_of segs) t = resolved_speaker segs t.
Proof.
  induction segs as [| s segs [IHk IHf]] using rev_ind.
  - split; reflexivity.
  - rewrite timeline_of_snoc. split.
    + rewrite first_key_dict_set, IHk, first_containing_snoc.
      destruct (first_containing segs t); simpl; [reflexivity |].
      destruct (between (interval_start s) t (interval_end s)); reflexivity.
    + rewrite find_speaker_dict_set, IHk, IHf.
      unfold resolved_speaker. rewrite first_containing_snoc.
      destruct (first_containing segs t) as [x |]; simpl.
      * rewrite last_with_interval_snoc, (key_eqb_sym (interval s)).
        reflexivity.
      * destruct (between (interval_start s) t (interval_end s));
          [| reflexivity].
        rewrite last_with_interval_snoc, key_eqb_refl. reflexivity.
Qed.

Lemma last_with_interval_In (segs : list SpeakerSegment) (k : Q * Q)
  (l : string) :
  last_with_interval segs k = Some l ->
  exists y, In y segs /\ key_eqb (interval y) k = true /\ label y = l.
Proof.
  induction segs as [| s rest IH]; simpl.
  - discriminate.
  - destruct (last_with_interval rest k) as [l' |].
    + intros [= <-]. destruct (IH eq_refl) as (y & Hy & Hk & Hl).
      exists y. auto.
    + destruct (key_eqb (interval s) k) eqn:E; [| discriminate].
      intros [= <-]. exists s. auto.
Qed.

Lemma last_with_interval_unique (segs : list SpeakerSegment)
  (x : SpeakerSegment) :
  In x segs ->
  (forall s, In s segs -> key_eqb (interval s) (interval x) = true ->
             label s = label x) ->
  last_with_interval segs (interval x) = Some (label x).
Proof.
  induction segs as [| s rest IH]; simpl; intros Hin Hall.
  - destruct Hin.
  - destruct (last_with_interval rest (interval x)) as [l |] eqn:L.
    + destruct (last_with_interval_In rest _ l L) as [y [Hy [Hk Hl]]].
      rewrite <- Hl. f_equal. apply Hall; [right; exact Hy | exact Hk].
    + destruct Hin as [-> | Hin].
      * rewrite key_eqb_refl. reflexivity.
      * assert (L' : None = Some (label x)).
        { apply IH; [exact Hin |].
          intros s' Hs'. apply Hall. right. exact Hs'. }
        discriminate L'.
Qed.

End Timeline.

(** ** The speaker of a word *)

Lemma speaker_neb_false (a b : option string) :
  speaker_neb a b = false <-> a = b.
Proof.
  destruct a as [x |], b as [y |]; simpl; split; intros H;
    try reflexivity; try discriminate.
  - apply negb_false_iff, String.eqb_eq in H. congruence.
  - injection H as ->. rewrite String.eqb_refl. reflexivity.
Qed.

Lemma speaker_neb_true (a b : option string) :
  speaker_neb a b = true <-> a <> b.
Proof.
  split.
  - intros H E. apply speaker_neb_false in E. congruence.
  - intros H. destruct (speaker_neb a b) eqn:E; [reflexivity |].
    apply speaker_neb_false in E. contradiction.
Qed.

(** The speaker held after a word is the one looked up for that word. *)
Lemma process_word_speaker (tl : timeline) (st : state) (w : string) (s e : Q) :
  exists st', process_item flush tl st (Word w s e) = Ok st'
              /\ current_speaker st' = find_speaker tl s.
Proof.
  rewrite process_word.
  destruct (speaker_neb (find_speaker tl s) (current_speaker st)) eqn:E.
  - destruct (flush_total st) as [lines Hl]. rewrite Hl. simpl.
    eexists. split; reflexivity.
  - apply speaker_neb_false in E. eexists. split; [reflexivity |].
    simpl. symmetry. exact E.
Qed.


Lemma first_containing_In (segs : list SpeakerSegment) (x : SpeakerSegment)
  (t : Q) :
  first_containing segs t = Some x ->
  In x segs /\ between (interval_start x) t (interval_end x) = true.
Proof.
  unfold first_containing. intros F. apply find_some in F. exact F.
Qed.


(** C2, as the code has it: the lookup goes through a dictionary keyed by
    the interval.  The first segment, in input order, that contains the
    start time of the word fixes the interval, whatever the tightness of
    the other intervals; the label is the one of the last segment that has
    this same interval.  Where every segment with the interval of the first
    match carries its label (in particular where no other segment has this
    interval), the label of the first match is chosen. *)
Theorem speaker_first_interval_last_label (segs : list SpeakerSegment) (t : Q) :
  build_timeline (map encode_segment segs) [] = Ok (timeline_of segs)
  /\ find_speaker (timeline_of segs) t = resolved_speaker segs t
  /\ (forall (st : state) (w : string) (e : Q),
         exists st',
           process_item flush (timeline_of segs) st (Word w t e) = Ok st'
           /\ current_speaker st' = resolved_speaker segs t)
  /\ (forall x : SpeakerSegment,
         first_containing segs t = Some x ->
         (forall s, In s segs -> key_eqb (interval s) (interval x) = true ->
                    label s = label x) ->
         find_speaker (timeline_of segs) t = Some (label x)).
Proof.
  destruct (find_speaker_timeline_of segs t) as [_ Hf].
  split; [apply build_timeline_encode |].
  split; [exact Hf |].
  split.
  - intros st w e.
    destruct (process_word_speaker (timeline_of segs) st w t e)
      as (st' & Hp & Hs).
    exists st'. split; [exact Hp |]. rewrite Hs. exact Hf.
  - intros x Hx Hall. rewrite Hf. unfold resolved_speaker. rewrite Hx.
    apply last_with_interval_unique; [| exact Hall].
    apply (first_containing_In segs x t Hx).
Qed.

Lemma speaker_first_interval_last_label_witness :
  let wide := {| label := "spk_0"; interval_start := 0; interval_end := 10 |} in
  let tight := {| label := "spk_1"; interval_start := 4; interval_end := 6 |} in
  find_speaker (timeline_of [wide; tight]) 5 = Some "spk_0".
Proof.
  intros wide tight.
  destruct (speaker_first_interval_last_label [wide; tight] 5)
    as (_ & _ & _ & H).
  apply (H wide).
  - reflexivity.
  - intros s [<- | [<- | []]] E.
    + reflexivity.
    + vm_compute in E. discriminate E.
Defined.

(** C2 does not hold as stated: of two segments with the same interval and
    different labels, the second one gives its label to a word inside the
    interval. *)
Lemma identical_intervals_second_label :
  let first := {| label := "spk_0"; interval_start := 0; interval_end := 2 |} in
  let second := {| label := "spk_1"; interval_start := 0; interval_end := 2 |} in
  let segs := [first; second] in
  first_containing segs 1 = Some first
  /\ build_timeline (map encode_segment segs) [] = Ok [((0, 2), "spk_1")]
  /\ find_speaker [((0, 2), "spk_1")] 1 = Some "spk_1"
  /\ find_speaker (timeline_of segs) 1 <> Some (label first)
  /\ convert_to_markdown
       (transcript [Word "Hello" 1 2] (map encode_segment segs))
     = Ok (document ["[speaker: spk_1][00:01-00:02]: Hello"]).
Proof.
  intros first second segs.
  split; [reflexivity |]. split; [reflexivity |]. split; [reflexivity |].
  split; [| reflexivity].
  vm_compute. discriminate.
Qed.



(** ** Punctuation *)

Lemma append_to_last_snoc (init : list string) (last mark : string) :
  append_to_last (init ++ [last]) mark = (init ++ [(last ++ mark)%string])%list.
Proof.
  induction init as [| x rest IH]; simpl.
  - reflexivity.
  - rewrite IH. destruct rest; reflexivity.
Qed.

Lemma process_punctuation_no_run (tl : timeline) (st : state) (it : item) :
  item_type it = Some "punctuation" ->
  current_text st = [] ->
  process_item flush tl st it = Ok st.
Proof.
  intros Hty Htext. unfold process_item. rewrite Hty, Htext. reflexivity.
Qed.

Lemma for_items_app (tl : timeline) (its1 its2 : list item) (st : state) :
  for_items flush tl st (its1 ++ its2)%list
  = st' <- for_items flush tl st its1 ;; for_items flush tl st' its2.
Proof.
  revert st. induction its1 as [| it rest IH]; intros st; simpl.
  - reflexivity.
  - destruct (process_item flush tl st it) as [st1 |]; simpl.
    + apply IH.
    + reflexivity.
Qed.

Lemma for_items_punctuation_no_run (tl : timeline) (marks : list item)
  (st : state) :
  Forall (fun it => item_type it = Some "punctuation") marks ->
  current_text st = [] ->
  for_items flush tl st marks = Ok st.
Proof.
  intros Hall Htext. induction Hall as [| it rest Hty _ IH]; simpl.
  - reflexivity.
  - rewrite (process_punctuation_no_run tl st it Hty Htext). simpl. exact IH.
Qed.

Lemma for_items_punctuation_glue (tl : timeline) (marks : list string) :
  forall (st : state) (init : list string) (last : string),
    current_text st = (init ++ [last])%list ->
    for_items flush tl st (map Punctuation marks)
    = Ok {| markdown_lines := markdown_lines st;
            current_speaker := current_speaker st;
            current_text := (init ++ [fold_left append marks last])%list;
            current_start := current_start st;
            current_end := current_end st |}.
Proof.
  induction marks as [| mark rest IH]; intros st init last Htext; simpl.
  - rewrite <- Htext. destruct st. reflexivity.
  - rewrite process_punctuation, Htext.
    replace (nonempty (init ++ [last])) with true by (destruct init; reflexivity).
    simpl. rewrite append_to_last_snoc.
    rewrite (IH _ init (last ++ mark)); reflexivity.
Qed.

(** C4: while a run with at least one word is open, a punctuation item is
    appended to the last accumulated word without a space in between, and
    consecutive punctuation items are appended to that same word in order;
    when no word has been accumulated, a punctuation item is dropped: it
    changes nothing, raises nothing, and leaves the document as it would be
    without it. *)
Theorem punctuation_glues_or_drops (tl : timeline) (st : state)
  (init : list string) (last : string) :
  current_text st = (init ++ [last])%list ->
  (forall mark : string,
      process_item flush tl st (Punctuation mark)
      = Ok {| markdown_lines := markdown_lines st;
              current_speaker := current_speaker st;
              current_text := (init ++ [(last ++ mark)%string])%list;
              current_start := current_start st;
              current_end := current_end st |})
  /\ (forall marks : list string,
         for_items flush tl st (map Punctuation marks)
         = Ok {| markdown_lines := markdown_lines st;
                 current_speaker := current_speaker st;
                 current_text := (init ++ [fold_left append marks last])%list;
                 current_start := current_start st;
                 current_end := current_end st |})
  /\ (forall (idle : state) (it : item),
         item_type it = Some "punctuation" ->
         current_text idle = [] ->
         process_item flush tl idle it = Ok idle)
  /\ (forall (marks its : list item) (labels : option speaker_labels_t),
         Forall (fun it => item_type it = Some "punctuation") marks ->
         convert_to_markdown
           {| results := Some {| items := Some (marks ++ its)%list;
                                 speaker_labels := labels |} |}
         = convert_to_markdown
             {| results := Some {| items := Some its;
                                   speaker_labels := labels |} |}).
Proof.
  intros Htext. split; [| split; [| split]].
  - intros mark.
    pose proof (for_items_punctuation_glue tl [mark] st init last Htext) as H.
    simpl in H. destruct (process_item flush tl st (Punctuation mark));
      simpl in H; [exact H | discriminate H].
  - intros marks. apply for_items_punctuation_glue. exact Htext.
  - intros idle it. apply process_punctuation_no_run.
  - intros marks its labels Hall. unfold convert_to_markdown, render. simpl.
    destruct (build_timeline _ []) as [tl' |]; simpl; [| reflexivity].
    rewrite for_items_app.
    rewrite (for_items_punctuation_no_run tl' marks initial_state Hall eq_refl).
    reflexivity.
Qed.

Lemma punctuation_glues_or_drops_witness :
  let st := {| markdown_lines := [];
               current_speaker := Some "spk_0";
               current_text := ["Hello"; "world"];
               current_start := Some 0;
               current_end := Some 2 |} in
  process_item flush [((0, 2), "spk_0")] st (Punctuation ".")
  = Ok {| markdown_lines := [];
          current_speaker := Some "spk_0";
          current_text := ["Hello"; "world."];
          current_start := Some 0;
          current_end := Some 2 |}.
Proof.
  intros st.
  destruct (punctuation_glues_or_drops [((0, 2), "spk_0")] st ["Hello"] "world")
    as (H & _).
  - reflexivity.
  - apply (H ".").
Defined.

(** ** Time stamps *)

Lemma Qfloor_div60 (q : Q) : Qfloor (q / 60) = (Qfloor q / 60)%Z.
Proof.
  destruct q as [n d]. unfold Qdiv, Qmult, Qinv, Qfloor. simpl.
  rewrite Z.mul_1_r, Pos2Z.inj_mul, Z.div_div; [reflexivity | lia | lia].
Qed.

Lemma int_inject_Z (z : Z) : int (inject_Z z) = z.
Proof. unfold int, inject_Z. simpl. apply Z.quot_1_r. Qed.

(** [int(x % 60)] is the integer part of [x], modulo sixty. *)
Lemma int_mod60 (q : Q) :
  int (q - 60 * inject_Z (Qfloor (q / 60))) = (Qfloor q mod 60)%Z.
Proof.
  rewrite Qfloor_div60. destruct q as [n d].
  cbv [int Qminus Qplus Qopp Qmult inject_Z Qfloor Qnum Qden].
  rewrite Pos.mul_1_r, !Z.mul_1_r.
  pose proof (Z.div_mod n (Z.pos d) ltac:(lia)) as Hn.
  pose proof (Z.mod_pos_bound n (Z.pos d) ltac:(lia)) as Hb.
  pose proof (Z.div_mod (n / Z.pos d) 60 ltac:(lia)) as Hm.
  pose proof (Z.mod_pos_bound (n / Z.pos d) 60 ltac:(lia)) as Hc.
  set (a := (n / Z.pos d)%Z) in *.
  set (m := (a / 60)%Z) in *.
  rewrite Z.quot_div_nonneg by nia.
  symmetry. apply Z.div_unique with (r := (n mod Z.pos d)%Z).
  - left. lia.
  - nia.
Qed.

Lemma seconds_mod60 (q : Q) : seconds q = (Qfloor q mod 60)%Z.
Proof.
  unfold seconds. rewrite Qfloor_div60. destruct q as [n d].
  cbv [Qminus Qplus Qopp Qmult inject_Z Qfloor Qnum Qden].
  rewrite Pos.mul_1_r, !Z.mul_1_r.
  pose proof (Z.div_mod n (Z.pos d) ltac:(lia)) as Hn.
  pose proof (Z.mod_pos_bound n (Z.pos d) ltac:(lia)) as Hb.
  pose proof (Z.div_mod (n / Z.pos d) 60 ltac:(lia)) as Hm.
  pose proof (Z.mod_pos_bound (n / Z.pos d) 60 ltac:(lia)) as Hc.
  set (a := (n / Z.pos d)%Z) in *.
  set (m := (a / 60)%Z) in *.
  symmetry. apply Z.div_unique with (r := (n mod Z.pos d)%Z).
  - left. lia.
  - nia.
Qed.


Lemma string_app_assoc (a b c : string) : (a ++ b) ++ c = a ++ b ++ c.
Proof.
  induction a as [| ch a IH]; simpl.
  - reflexivity.
  - rewrite IH. reflexivity.
Qed.

(** The line written for a run that has a label, words and both times. *)
Lemma flush_line (st : state) (sp : string) (s e : Q) :
  current_speaker st = Some sp -> sp <> "" -> current_text st <> [] ->
  current_start st = Some s -> current_end st = Some e ->
  flush st
  = Ok (markdown_lines st
        ++ [("[speaker: " ++ sp ++ "][" ++ clock s ++ "-" ++ clock e ++ "]: "
             ++ join " " (current_text st))%string])%list.
Proof.
  intros Hsp Hne Htext Hs He. unfold flush, write_run.
  rewrite Hsp, Hs, He. simpl.
  replace (sp =? "") with false
    by (symmetry; apply String.eqb_neq; exact Hne).
  replace (nonempty (current_text st)) with true
    by (destruct (current_text st); [contradiction | reflexivity]).
  simpl. rewrite !int_inject_Z, !int_mod60.
  unfold clock, minutes. rewrite !seconds_mod60.
  rewrite !string_app_assoc. reflexivity.
Qed.



(** ** The loop computes the runs *)

Lemma string_app_nil_r (a : string) : a ++ "" = a.
Proof.
  induction a as [| ch a IH]; simpl; [reflexivity | rewrite IH; reflexivity].
Qed.

Lemma append_to_last_nil_r (l : list string) : append_to_last l "" = l.
Proof.
  induction l as [| x rest IH]; simpl.
  - reflexivity.
  - destruct rest as [| y rest'].
    + rewrite string_app_nil_r. reflexivity.
    + rewrite IH. reflexivity.
Qed.

Lemma append_to_last_twice (l : list string) (a b : string) :
  append_to_last (append_to_last l a) b = append_to_last l (a ++ b).
Proof.
  induction l as [| x rest IH]; simpl.
  - reflexivity.
  - destruct rest as [| y rest'].
    + simpl. rewrite string_app_assoc. reflexivity.
    + simpl in IH |- *. destruct rest' as [| z rest''].
      * simpl. rewrite string_app_assoc. reflexivity.
      * rewrite <- IH. reflexivity.
Qed.

Lemma speaker_neb_sym (a b : option string) :
  speaker_neb a b = speaker_neb b a.
Proof.
  destruct a as [x |], b as [y |]; simpl; try reflexivity.
  rewrite String.eqb_sym. reflexivity.
Qed.

Lemma truthy_Some (sp : option string) :
  truthy sp = true -> exists l, sp = Some l /\ l <> "".
Proof.
  destruct sp as [l |]; simpl; [| discriminate].
  intros H. exists l. split; [reflexivity |].
  apply negb_true_iff, String.eqb_neq in H. exact H.
Qed.

Local Open Scope list_scope.

(** Writing out the run that a state holds. *)
Lemma flush_holds (st : state) (r : run) :
  holds st r -> flush st = Ok (markdown_lines st ++ emit r).
Proof.
  intros (Hsp & Htext & Htimes). unfold emit.
  destruct (truthy (run_speaker r)) eqn:T; simpl.
  - destruct (Htimes eq_refl) as [Hs He].
    destruct (truthy_Some _ T) as (l & Hl & Hne).
    destruct (run_words r) as [| w ws] eqn:W; simpl.
    + unfold flush. rewrite Htext. simpl. rewrite andb_false_r. simpl.
      rewrite app_nil_r. reflexivity.
    + rewrite (flush_line st l (run_start r) (run_end r)).
      * unfold run_line. rewrite Hl, Htext, W. reflexivity.
      * rewrite Hsp. exact Hl.
      * exact Hne.
      * rewrite Htext. discriminate.
      * exact Hs.
      * exact He.
  - unfold flush. rewrite Hsp, T. simpl. rewrite app_nil_r. reflexivity.
Qed.

Lemma merge_speaker (r : run) (rs : list run) :
  exists g rest, merge r rs = g :: rest /\ run_speaker g = run_speaker r.
Proof.
  destruct rs as [| g rest]; simpl.
  - eexists _, _. split; reflexivity.
  - destruct (speaker_neb _ _); eexists _, _; split; reflexivity.
Qed.

Lemma run_app_assoc (a b c : run) :
  run_app a (run_app b c) = run_app (run_app a b) c.
Proof.
  unfold run_app. simpl. rewrite app_assoc. reflexivity.
Qed.

Lemma merge_merge_same (r g : run) (rs : list run) :
  run_speaker g = run_speaker r ->
  merge r (merge g rs) = merge (run_app r g) rs.
Proof.
  intros Hsame. destruct rs as [| h rest]; simpl.
  - rewrite Hsame.
    replace (speaker_neb (run_speaker r) (run_speaker r)) with false
      by (symmetry; apply speaker_neb_false; reflexivity).
    reflexivity.
  - rewrite <- Hsame. destruct (speaker_neb (run_speaker g) (run_speaker h)) eqn:E;
      simpl; rewrite Hsame;
      replace (speaker_neb (run_speaker r) (run_speaker r)) with false
        by (symmetry; apply speaker_neb_false; reflexivity).
    + reflexivity.
    + rewrite run_app_assoc. reflexivity.
Qed.

Lemma merge_change (r g : run) (rs : list run) :
  speaker_neb (run_speaker r) (run_speaker g) = true ->
  merge r (merge g rs) = r :: merge g rs.
Proof.
  intros Hneq. destruct (merge_speaker g rs) as (h & rest & -> & Hh).
  simpl. rewrite Hh, Hneq. reflexivity.
Qed.

Section LoopRuns.

Variable tl : timeline.

Lemma holds_word_change (st : state) (lines : list string) (w : string)
  (s e : Q) :
  holds {| markdown_lines := lines;
           current_speaker := find_speaker tl s;
           current_text := [w];
           current_start := Some s;
           current_end := Some e |}
        (single (find_speaker tl) (w, s, e)).
Proof.
  repeat split.
Qed.

Lemma holds_word_same (st : state) (r : run) (w : string) (s e : Q) :
  holds st r ->
  find_speaker tl s = current_speaker st ->
  holds {| markdown_lines := markdown_lines st;
           current_speaker := current_speaker st;
           current_text := current_text st ++ [w];
           current_start := current_start st;
           current_end := Some e |}
        (run_app r (single (find_speaker tl) (w, s, e))).
Proof.
  intros (Hsp & Htext & Htimes) Hsame. unfold holds. simpl.
  split; [exact Hsp |]. split; [rewrite Htext; reflexivity |].
  intros T. destruct (Htimes T) as [Hs _]. split; [exact Hs | reflexivity].
Qed.

(** The loop from a state that holds a run, followed by the final write:
    the lines already there, then the lines of the run merged with the
    runs of the remaining items. *)
Lemma loop_runs (toks : list TranscriptItem) :
  forall (st : state) (r : run),
    holds st r ->
    (st' <- for_items flush tl st (map encode_item toks) ;; flush st')
    = Ok (markdown_lines st
          ++ flat_map emit
               (merge (with_marks r (fst (glue toks)))
                      (runs (find_speaker tl) (snd (glue toks))))).
Proof.
  induction toks as [| [w s e | mark] rest IH]; intros st r Hr.
  - simpl. rewrite (flush_holds st r Hr), app_nil_r.
    unfold with_marks. rewrite append_to_last_nil_r.
    destruct r. reflexivity.
  - cbn [map encode_item for_items]. rewrite process_word.
    cbn [glue]. destruct (glue rest) as [pending ws] eqn:G.
    cbn [fst snd runs]. simpl in IH.
    unfold with_marks at 1. rewrite append_to_last_nil_r.
    replace {| run_speaker := run_speaker r; run_start := run_start r;
               run_end := run_end r; run_words := run_words r |}
      with r by (destruct r; reflexivity).
    destruct (speaker_neb (find_speaker tl s) (current_speaker st)) eqn:E.
    + rewrite (flush_holds st r Hr). cbn [bind].
      rewrite (IH _ _ (holds_word_change st _ w s e)). cbn [markdown_lines].
      rewrite merge_change.
      * cbn [flat_map]. rewrite app_assoc. reflexivity.
      * destruct Hr as (Hsp & _). rewrite <- Hsp, speaker_neb_sym.
        exact E.
    + apply speaker_neb_false in E. cbn [bind].
      rewrite (IH _ _ (holds_word_same st r w s e Hr E)).
      cbn [markdown_lines].
      rewrite merge_merge_same.
      * unfold with_marks, run_app. simpl.
        rewrite append_to_last_snoc. reflexivity.
      * destruct Hr as (Hsp & _). simpl. rewrite E. exact Hsp.
  - cbn [map encode_item for_items]. rewrite process_punctuation.
    cbn [glue]. destruct (glue rest) as [pending ws] eqn:G.
    cbn [fst snd]. simpl in IH.
    destruct (nonempty (current_text st)) eqn:N; cbn [bind].
    + assert (Hr' : holds {| markdown_lines := markdown_lines st;
                             current_speaker := current_speaker st;
                             current_text := append_to_last (current_text st) mark;
                             current_start := current_start st;
                             current_end := current_end st |}
                          (with_marks r mark)).
      { destruct Hr as (Hsp & Htext & Htimes). unfold holds. simpl.
        split; [exact Hsp |]. split; [rewrite Htext; reflexivity |].
        exact Htimes. }
      rewrite (IH _ _ Hr'). cbn [markdown_lines].
      unfold with_marks. simpl. rewrite append_to_last_twice. reflexivity.
    + rewrite (IH _ _ Hr).
      destruct Hr as (_ & Htext & _).
      unfold with_marks. rewrite <- Htext.
      destruct (current_text st); [reflexivity | discriminate N].
Qed.

End LoopRuns.

Lemma holds_initial :
  holds initial_state
        {| run_speaker := None; run_start := 0; run_end := 0; run_words := [] |}.
Proof.
  split; [reflexivity |]. split; [reflexivity |]. discriminate.
Qed.

Lemma emit_merge_idle (r : run) (rs : list run) :
  run_speaker r = None ->
  flat_map emit (merge r rs) = flat_map emit rs.
Proof.
  intros Hn. destruct rs as [| g rest]; simpl.
  - unfold emit. rewrite Hn. reflexivity.
  - destruct (speaker_neb (run_speaker r) (run_speaker g)) eqn:E; simpl.
    + unfold emit at 1. rewrite Hn. reflexivity.
    + apply speaker_neb_false in E. unfold emit at 1 3. simpl.
      rewrite <- E, Hn. reflexivity.
Qed.

(** The document of a well-formed transcript, through its runs. *)
Lemma convert_runs (toks : list TranscriptItem) (segs : list SpeakerSegment) :
  convert_to_markdown
    (transcript (map encode_item toks) (map encode_segment segs))
  = Ok (document (transcript_lines (timeline_of segs) toks)).
Proof.
  unfold convert_to_markdown, render, transcript. simpl.
  rewrite build_timeline_encode. fold (timeline_of segs). simpl.
  pose proof (loop_runs (timeline_of segs) toks initial_state _ holds_initial)
    as H.
  destruct (for_items flush (timeline_of segs) initial_state
              (map encode_item toks)) as [st |]; simpl in H |- *.
  - rewrite H. simpl. rewrite emit_merge_idle by reflexivity. reflexivity.
  - discriminate H.
Qed.

(** ** Runs and speaker changes *)

Lemma glue_app_word (before after : list TranscriptItem) (w : string) (s e : Q) :
  glue (before ++ TWord w s e :: after)
  = (fst (glue before),
     snd (glue before) ++ snd (glue (TWord w s e :: after))).
Proof.
  induction before as [| [w' s' e' | mark] rest IH]; simpl.
  - destruct (glue after) as [pending ws]. reflexivity.
  - simpl in IH. rewrite IH. destruct (glue rest) as [pending ws].
    destruct (glue after). reflexivity.
  - simpl in IH. rewrite IH. destruct (glue rest) as [pending ws].
    destruct (glue after). reflexivity.
Qed.

Lemma glue_marks (marks : list string) :
  snd (glue (map TPunctuation marks)) = [].
Proof.
  induction marks as [| mark rest IH]; simpl.
  - reflexivity.
  - destruct (glue (map TPunctuation rest)). exact IH.
Qed.

Lemma glue_words (ws : list (string * Q * Q)) :
  glue (map (fun '(w, s, e) => TWord w s e) ws) = (""%string, ws).
Proof.
  induction ws as [| [[w s] e] rest IH]; simpl.
  - reflexivity.
  - rewrite IH, string_app_nil_r. reflexivity.
Qed.

Lemma last_cons {A : Type} (x d : A) (l : list A) :
  List.last (x :: l) d = List.last l x.
Proof.
  revert x d. induction l as [| y rest IH]; intros x d.
  - reflexivity.
  - change (List.last (x :: y :: rest) d) with (List.last (y :: rest) d).
    rewrite (IH y d), (IH y x). reflexivity.
Qed.

Section RunsFacts.

Variable speaker_of : Q -> option string.

Lemma runs_nonempty (w : string * Q * Q) (ws : list (string * Q * Q)) :
  exists g rest, runs speaker_of (w :: ws) = g :: rest
                 /\ run_speaker g = speaker_of (snd (fst w)).
Proof.
  simpl. destruct (merge_speaker (single speaker_of w) (runs speaker_of ws))
    as (g & rest & Hm & Hg).
  exists g, rest. split; [exact Hm |].
  rewrite Hg. destruct w as [[t s] e]. reflexivity.
Qed.

Lemma merge_app (r g : run) (rs more : list run) :
  merge r (g :: rs ++ more) = merge r (g :: rs) ++ more.
Proof.
  simpl. destruct (speaker_neb _ _); reflexivity.
Qed.

(** A change of speaker between two adjacent words cuts the runs. *)
Lemma runs_app_change (ws1 ws2 : list (string * Q * Q))
  (w1 w2 : string * Q * Q) :
  speaker_of (snd (fst w1)) <> speaker_of (snd (fst w2)) ->
  runs speaker_of (ws1 ++ w1 :: w2 :: ws2)
  = runs speaker_of (ws1 ++ [w1]) ++ runs speaker_of (w2 :: ws2).
Proof.
  intros Hneq. induction ws1 as [| x rest IH].
  - cbn [app runs]. rewrite merge_change.
    + reflexivity.
    + apply speaker_neb_true. destruct w1 as [[t1 s1] e1], w2 as [[t2 s2] e2].
      exact Hneq.
  - assert (Hne : exists g gs, runs speaker_of (rest ++ [w1]) = g :: gs).
    { destruct rest as [| y rest'].
      - destruct (runs_nonempty w1 []) as (g & gs & Hg & _). eauto.
      - destruct (runs_nonempty y (rest' ++ [w1])) as (g & gs & Hg & _).
        eauto. }
    destruct Hne as (g & gs & Hg).
    change ((x :: rest) ++ w1 :: w2 :: ws2)
      with (x :: (rest ++ w1 :: w2 :: ws2)).
    change ((x :: rest) ++ [w1]) with (x :: (rest ++ [w1])).
    cbn [runs]. rewrite IH, Hg. apply merge_app.
Qed.

(** Words that all have the same speaker form one run. *)
Lemma runs_same (sp : option string) (w : string * Q * Q)
  (ws : list (string * Q * Q)) :
  Forall (fun x => speaker_of (snd (fst x)) = sp) (w :: ws) ->
  runs speaker_of (w :: ws)
  = [ {| run_speaker := sp;
         run_start := snd (fst w);
         run_end := snd (List.last ws w);
         run_words := map (fun x => fst (fst x)) (w :: ws) |} ].
Proof.
  revert w. induction ws as [| y rest IH]; intros w Hall.
  - apply Forall_cons_iff in Hall. destruct Hall as [Hw _].
    destruct w as [[t s] e]. simpl in *. rewrite Hw. reflexivity.
  - apply Forall_cons_iff in Hall. destruct Hall as [Hw Hrest].
    cbn [runs] in IH |- *. rewrite (IH y Hrest).
    destruct w as [[t s] e]. simpl in Hw. cbn [merge single run_speaker].
    rewrite Hw.
    replace (speaker_neb sp sp) with false
      by (symmetry; apply speaker_neb_false; reflexivity).
    unfold run_app. cbn [run_speaker run_start run_end run_words fst snd].
    rewrite last_cons. reflexivity.
Qed.

End RunsFacts.

Lemma transcript_lines_change (tl : timeline)
  (before after : list TranscriptItem) (marks : list string)
  (w1 w2 : string) (s1 e1 s2 e2 : Q) :
  find_speaker tl s1 <> find_speaker tl s2 ->
  transcript_lines tl ((before ++ TWord w1 s1 e1 :: map TPunctuation marks)
                       ++ TWord w2 s2 e2 :: after)
  = transcript_lines tl (before ++ TWord w1 s1 e1 :: map TPunctuation marks)
    ++ transcript_lines tl (TWord w2 s2 e2 :: after).
Proof.
  intros Hneq. unfold transcript_lines.
  rewrite (glue_app_word (before ++ _) after w2 s2 e2). cbn [snd].
  rewrite (glue_app_word before (map TPunctuation marks) w1 s1 e1). cbn [snd].
  cbn [glue]. pose proof (glue_marks marks) as Hm.
  destruct (glue (map TPunctuation marks)) as [pending1 ws1].
  simpl in Hm. subst ws1.
  destruct (glue after) as [pending2 ws2]. cbn [snd].
  rewrite <- app_assoc. cbn [app].
  rewrite runs_app_change by exact Hneq.
  apply flat_map_app.
Qed.

Lemma emit_runs_idle (speaker_of : Q -> option string)
  (ws : list (string * Q * Q)) :
  Forall (fun x => speaker_of (snd (fst x)) = None) ws ->
  flat_map emit (runs speaker_of ws) = [].
Proof.
  intros Hall. destruct ws as [| w rest].
  - reflexivity.
  - rewrite (runs_same speaker_of None w rest Hall). reflexivity.
Qed.

Lemma glue_In (toks : list TranscriptItem) (t : string) (s e : Q) :
  In (t, s, e) (snd (glue toks)) -> exists w, In (TWord w s e) toks.
Proof.
  induction toks as [| [w' s' e' | mark] rest IH]; simpl.
  - intros [].
  - destruct (glue rest) as [pending ws]. simpl in *.
    intros [[= _ <- <-] | Hin].
    + exists w'. left. reflexivity.
    + destruct (IH Hin) as [w Hw]. exists w. right. exact Hw.
  - destruct (glue rest) as [pending ws]. simpl in *.
    intros Hin. destruct (IH Hin) as [w Hw]. exists w. right. exact Hw.
Qed.

Lemma emit_In (rs : list run) (line : string) :
  In line (flat_map emit rs) ->
  exists r l, In r rs /\ run_speaker r = Some l /\ l <> ""%string
              /\ line = run_line r.
Proof.
  intros Hin. apply in_flat_map in Hin. destruct Hin as (r & Hr & Hline).
  unfold emit in Hline.
  destruct (truthy (run_speaker r)) eqn:T; simpl in Hline; [| destruct Hline].
  destruct (nonempty (run_words r)); simpl in Hline; [| destruct Hline].
  destruct Hline as [<- | []].
  destruct (truthy_Some _ T) as (l & Hl & Hne).
  exists r, l. auto.
Qed.

(** C5: a word whose speaker differs from the speaker of the open run
    closes that run and opens a new one with this word alone, whatever the
    times; the lines of a transcript in which a word is followed (possibly
    after punctuation) by a word with another speaker are the lines of the
    part up to the first word followed by the lines of the part from the
    second word, so no line holds both.  A word with the speaker of the
    open run is added to it, and words that all have one speaker give one
    line with the words joined by spaces.  Two words under spk_0 and one
    under spk_1 give exactly two lines. *)
Theorem speaker_change_new_line (segs : list SpeakerSegment) :
  let tl := timeline_of segs in
  let encode toks :=
    transcript (map encode_item toks) (map encode_segment segs) in
  (forall (st : state) (w : string) (s e : Q),
      find_speaker tl s <> current_speaker st ->
      exists lines,
        flush st = Ok lines
        /\ process_item flush tl st (Word w s e)
           = Ok {| markdown_lines := lines;
                   current_speaker := find_speaker tl s;
                   current_text := [w];
                   current_start := Some s;
                   current_end := Some e |})
  /\ (forall (before after : list TranscriptItem) (marks : list string)
             (w1 w2 : string) (s1 e1 s2 e2 : Q),
         find_speaker tl s1 <> find_speaker tl s2 ->
         let head := before ++ TWord w1 s1 e1 :: map TPunctuation marks in
         let tail := TWord w2 s2 e2 :: after in
         convert_to_markdown (encode (head ++ tail))
         = Ok (document (transcript_lines tl head ++ transcript_lines tl tail))
         /\ convert_to_markdown (encode head)
            = Ok (document (transcript_lines tl head))
         /\ convert_to_markdown (encode tail)
            = Ok (document (transcript_lines tl tail)))
  /\ (forall (st : state) (w : string) (s e : Q),
         find_speaker tl s = current_speaker st ->
         process_item flush tl st (Word w s e)
         = Ok {| markdown_lines := markdown_lines st;
                 current_speaker := current_speaker st;
                 current_text := current_text st ++ [w];
                 current_start := current_start st;
                 current_end := Some e |})
  /\ (forall (sp : string) (w : string * Q * Q) (ws : list (string * Q * Q)),
         sp <> ""%string ->
         Forall (fun x => find_speaker tl (snd (fst x)) = Some sp) (w :: ws) ->
         convert_to_markdown
           (encode (map (fun '(text, s, e) => TWord text s e) (w :: ws)))
         = Ok (document
                 [("[speaker: " ++ sp ++ "][" ++ clock (snd (fst w)) ++ "-"
                   ++ clock (snd (List.last ws w)) ++ "]: "
                   ++ join " " (map (fun x => fst (fst x)) (w :: ws)))%string]))
  /\ convert_to_markdown
       (transcript [Word "Hello" 0 0.5; Word "world" 0.5 1; Word "Hi" 2 3]
                   [Segment "spk_0" 0 1; Segment "spk_1" 2 3])
     = Ok (document ["[speaker: spk_0][00:00-00:01]: Hello world"%string;
                     "[speaker: spk_1][00:02-00:03]: Hi"%string]).
Proof.
  intros tl encode. split; [| split; [| split; [| split]]].
  - intros st w s e Hneq. destruct (flush_total st) as [lines Hl].
    exists lines. split; [exact Hl |].
    rewrite process_word.
    replace (speaker_neb (find_speaker tl s) (current_speaker st)) with true
      by (symmetry; apply speaker_neb_true; exact Hneq).
    rewrite Hl. reflexivity.
  - intros before after marks w1 w2 s1 e1 s2 e2 Hneq head tail.
    unfold encode. rewrite !convert_runs. fold tl.
    unfold head, tail. rewrite (transcript_lines_change tl) by exact Hneq.
    auto.
  - intros st w s e Hsame. rewrite process_word.
    replace (speaker_neb (find_speaker tl s) (current_speaker st)) with false
      by (symmetry; apply speaker_neb_false; exact Hsame).
    reflexivity.
  - intros sp w ws Hne Hall. unfold encode. rewrite convert_runs. fold tl.
    unfold transcript_lines. rewrite glue_words. cbn [snd].
    rewrite (runs_same (find_speaker tl) (Some sp) w ws Hall).
    cbn [flat_map]. unfold emit. cbn [run_speaker run_words truthy map nonempty].
    replace (sp =? "")%string with false
      by (symmetry; apply String.eqb_neq; exact Hne).
    reflexivity.
  - vm_compute. reflexivity.
Qed.

Lemma speaker_change_new_line_witness :
  let segs := [ {| label := "spk_0"; interval_start := 0; interval_end := 0.9 |};
                {| label := "spk_1"; interval_start := 1; interval_end := 2 |} ] in
  convert_to_markdown
    (transcript
       (map encode_item
          (([TWord "Hello" 0 0.5] ++ TWord "world" 0.5 1 :: map TPunctuation ["."])
           ++ TWord "Hi" 1 1.5 :: [TPunctuation "!"]))
       (map encode_segment segs))
  = Ok (document ["[speaker: spk_0][00:00-00:01]: Hello world."%string;
                  "[speaker: spk_1][00:01-00:01]: Hi!"%string]).
Proof.
  intros segs.
  destruct (speaker_change_new_line segs) as (_ & H & _).
  destruct (H [TWord "Hello" 0 0.5] [TPunctuation "!"] ["."%string]
              "world"%string "Hi"%string 0.5 1 1 1.5) as (Hdoc & _).
  - vm_compute. discriminate.
  - rewrite Hdoc. vm_compute. reflexivity.
Defined.

(** ** Words without a speaker *)

(** C1, as the code has it: a word whose start time lies in no segment has
    no speaker.  Adjacent such words are collected in one run, but a run
    without a speaker is never written: both places that write a run test
    [current_speaker] first.  So every line of the document belongs to a run
    with a non-empty label, and a transcript in which no word has a speaker
    gives the title and the blank line only. *)
Theorem unattributed_words_not_written (segs : list SpeakerSegment) :
  let tl := timeline_of segs in
  let encode toks :=
    transcript (map encode_item toks) (map encode_segment segs) in
  (forall st : state,
      current_speaker st = None -> flush st = Ok (markdown_lines st))
  /\ (forall (st : state) (w : string) (s e : Q),
         current_speaker st = None ->
         find_speaker tl s = None ->
         process_item flush tl st (Word w s e)
         = Ok {| markdown_lines := markdown_lines st;
                 current_speaker := None;
                 current_text := current_text st ++ [w];
                 current_start := current_start st;
                 current_end := Some e |})
  /\ (forall (toks : list TranscriptItem) (line : string),
         convert_to_markdown (encode toks)
         = Ok (document (transcript_lines tl toks))
         /\ (In line (transcript_lines tl toks) ->
             exists r l,
               In r (runs (find_speaker tl) (snd (glue toks)))
               /\ run_speaker r = Some l /\ l <> ""%string
               /\ line = run_line r))
  /\ (forall toks : list TranscriptItem,
         (forall w s e, In (TWord w s e) toks -> find_speaker tl s = None) ->
         convert_to_markdown (encode toks)
         = Ok ("# Meeting Transcript" ++ newline ++ newline)%string).
Proof.
  intros tl encode. split; [| split; [| split]].
  - intros st Hn. unfold flush. rewrite Hn. reflexivity.
  - intros st w s e Hn Hs. rewrite process_word, Hs, Hn. reflexivity.
  - intros toks line. split.
    + apply convert_runs.
    + apply emit_In.
  - intros toks Hall. unfold encode. rewrite convert_runs. fold tl.
    unfold transcript_lines. rewrite emit_runs_idle; [reflexivity |].
    apply Forall_forall. intros [[t s] e] Hin.
    destruct (glue_In toks t s e Hin) as [w Hw]. exact (Hall w s e Hw).
Qed.

Lemma unattributed_words_not_written_witness :
  convert_to_markdown
    (transcript
       (map encode_item [TWord "Hello" 0 1; TPunctuation ","; TWord "there" 1 2])
       (map encode_segment
          [ {| label := "spk_0"; interval_start := 5; interval_end := 9 |} ]))
  = Ok ("# Meeting Transcript" ++ newline ++ newline)%string.
Proof.
  destruct (unattributed_words_not_written
              [ {| label := "spk_0"; interval_start := 5; interval_end := 9 |} ])
    as (_ & _ & _ & H).
  apply (H [TWord "Hello" 0 1; TPunctuation ","; TWord "there" 1 2]).
  intros w s e [[= <- <- <-] | [[=] | [[= <- <- <-] | []]]];
    vm_compute; reflexivity.
Defined.

(** C1 does not hold as stated: a word outside every segment is left out of
    the document.  The first input is the one of
    [test_convert_to_markdown_no_speakers]; in the second, the word between
    the two speakers is lost. *)
Lemma unattributed_word_dropped :
  convert_to_markdown (transcript [Word "Hello" 0 1] [])
  = Ok ("# Meeting Transcript" ++ newline ++ newline)%string
  /\ convert_to_markdown (transcript [Word "Hello" 0 1] [])
     <> Ok (document ["[speaker: ][00:00-00:01]: Hello"%string])
  /\ convert_to_markdown
       (transcript [Word "Hello" 0 1; Word "lost" 5 6; Word "Hi" 2 3]
                   [Segment "spk_0" 0 1; Segment "spk_1" 2 3])
     = Ok (document ["[speaker: spk_0][00:00-00:01]: Hello"%string;
                     "[speaker: spk_1][00:02-00:03]: Hi"%string]).
Proof.
  split; [| split].
  - vm_compute. reflexivity.
  - vm_compute. discriminate.
  - vm_compute. reflexivity.
Qed.

(** ** Absent diarization *)

(** C9: leaving out the [speaker_labels] key, or the [segments] key inside
    it, gives exactly the result of an explicit empty list of segments, for
    any items.  The absence itself raises nothing: the timeline is empty,
    every word resolves to no speaker, and well-formed items are rendered to
    a document (which, no run having a speaker, has no entry). *)
Theorem absent_segments_as_empty :
  (forall its : option (list item),
      convert_to_markdown
        {| results := Some {| items := its; speaker_labels := None |} |}
      = convert_to_markdown
          {| results := Some {| items := its;
                                speaker_labels := Some {| segments := Some [] |} |} |}
      /\ convert_to_markdown
           {| results := Some {| items := its;
                                 speaker_labels := Some {| segments := None |} |} |}
         = convert_to_markdown
             {| results := Some {| items := its;
                                   speaker_labels := Some {| segments := Some [] |} |} |})
  /\ build_timeline (get (segments (get None {| segments := None |})) []) []
     = Ok []
  /\ (forall t : Q, find_speaker [] t = None)
  /\ (forall toks : list TranscriptItem,
         let doc := ("# Meeting Transcript" ++ newline ++ newline)%string in
         convert_to_markdown
           {| results := Some {| items := Some (map encode_item toks);
                                 speaker_labels := None |} |} = Ok doc
         /\ convert_to_markdown
              {| results := Some {| items := Some (map encode_item toks);
                                    speaker_labels := Some {| segments := None |} |} |}
            = Ok doc).
Proof.
  split; [| split; [| split]].
  - intros its. split; reflexivity.
  - reflexivity.
  - reflexivity.
  - intros toks doc.
    assert (H : convert_to_markdown (transcript (map encode_item toks)
                                       (map encode_segment [])) = Ok doc).
    { rewrite convert_runs. unfold transcript_lines.
      rewrite emit_runs_idle; [reflexivity |].
      apply Forall_forall. intros x _. reflexivity. }
    split; exact H.
Qed.

(** ** Which inputs are accepted *)







Lemma process_other_type (tl : timeline) (st : state) (it : item) (ty : string) :
  item_type it = Some ty -> ty <> "pronunciation"%string ->
  ty <> "punctuation"%string ->
  process_item flush tl st it = Ok st.
Proof.
  intros Hty Hw Hp. unfold process_item. rewrite Hty. cbn [getitem bind].
  apply String.eqb_neq in Hw, Hp. rewrite Hw, Hp. reflexivity.
Qed.

(** X2: an item whose type is neither [pronunciation] nor [punctuation] is
    skipped, whatever else it holds: the document (or the exception) is the
    one of the input without it. *)
Theorem other_items_ignored (it : item) (ty : string)
  (before after : list item) (labels : option speaker_labels_t) :
  item_type it = Some ty -> ty <> "pronunciation"%string ->
  ty <> "punctuation"%string ->
  convert_to_markdown
    {| results := Some {| items := Some (before ++ it :: after);
                          speaker_labels := labels |} |}
  = convert_to_markdown
      {| results := Some {| items := Some (before ++ after);
                            speaker_labels := labels |} |}.
Proof.
  intros Hty Hw Hp. unfold convert_to_markdown, render. cbn [results items getitem bind].
  destruct (build_timeline _ []) as [tl |]; cbn [bind]; [| reflexivity].
  rewrite !for_items_app.
  destruct (for_items flush tl initial_state before) as [st |]; cbn [bind];
    [| reflexivity].
  cbn [for_items]. rewrite (process_other_type tl st it ty Hty Hw Hp).
  reflexivity.
Qed.

Lemma other_items_ignored_witness :
  let pause := {| item_type := Some "pause"; start_time := None;
                  end_time := Some NoNumeral; alternatives := Some [] |} in
  convert_to_markdown
    (transcript ([Word "Hello" 0 1] ++ pause :: [Word "world" 1 2])
                [Segment "spk_0" 0 2])
  = convert_to_markdown
      (transcript ([Word "Hello" 0 1] ++ [Word "world" 1 2])
                  [Segment "spk_0" 0 2]).
Proof.
  intros pause.
  apply (other_items_ignored pause "pause" [Word "Hello" 0 1] [Word "world" 1 2]).
  - reflexivity.
  - discriminate.
  - discriminate.
Defined.

Lemma build_timeline_error (good : list SpeakerSegment) (bad : segment)
  (rest : list segment) (e : exn) :
  segment_error bad = Some e ->
  forall d : timeline,
    build_timeline (map encode_segment good ++ bad :: rest) d = Raise e.
Proof.
  intros Hbad. induction good as [| s good' IH]; intros d.
  - cbn [map app build_timeline]. unfold segment_error in Hbad.
    destruct (v <- getitem "start_time" (seg_start_time bad) ;; float v)
      as [qs | e1]; cbn [bind]; [| congruence].
    destruct (v <- getitem "end_time" (seg_end_time bad) ;; float v)
      as [qe | e2]; cbn [bind]; [| congruence].
    destruct (getitem "speaker_label" (speaker_label bad)) as [l | e3];
      cbn [bind]; [discriminate Hbad | congruence].
  - cbn [map app]. simpl. apply IH.
Qed.

(** X3: the segments are read before the items: the first segment that lacks a
    key or a numeric time makes the function raise the exception of that
    access, whatever the items are, also when there are none. *)
Theorem malformed_segment_raises_first (good : list SpeakerSegment)
  (bad : segment) (rest : list segment) (e : exn) (its : list item) :
  segment_error bad = Some e ->
  convert_to_markdown (transcript its (map encode_segment good ++ bad :: rest))
  = Raise e.
Proof.
  intros Hbad. unfold convert_to_markdown, render, transcript.
  cbn [results items speaker_labels segments get getitem bind].
  rewrite (build_timeline_error good bad rest e Hbad). reflexivity.
Qed.

Lemma malformed_segment_raises_first_witness :
  convert_to_markdown
    (transcript []
       (map encode_segment
          [ {| label := "spk_0"; interval_start := 0; interval_end := 2 |} ]
        ++ {| seg_start_time := Some (Seconds 2);
              seg_end_time := None;
              speaker_label := Some "spk_1" |} :: []))
  = Raise (KeyError "end_time").
Proof.
  apply (malformed_segment_raises_first
           [ {| label := "spk_0"; interval_start := 0; interval_end := 2 |} ]).
  reflexivity.
Defined.

(** ** The shape of the document *)

Section Blocks.

Variable speaker_of : Q -> option string.

Lemma block_run_single (w : string * Q * Q) :
  block_run speaker_of (w, []) = single speaker_of w.
Proof. destruct w as [[t s] e]. reflexivity. Qed.

Lemma block_run_cons (w : string * Q * Q) (b : block) :
  run_app (single speaker_of w) (block_run speaker_of b)
  = block_run speaker_of (w, block_words b).
Proof.
  destruct w as [[t s] e], b as [f more].
  unfold run_app, block_run, block_words. cbn [fst snd run_speaker run_start
    run_end run_words single map app].
  rewrite last_cons. reflexivity.
Qed.

(** The runs are the runs of blocks that partition the words in order, each
    of one speaker, adjacent blocks being of different speakers. *)
Lemma runs_blocks (ws : list (string * Q * Q)) :
  exists bs : list block,
    flat_map block_words bs = ws
    /\ Forall (fun b => Forall (fun w => speaker_of (snd (fst w))
                                         = speaker_of (snd (fst (fst b))))
                               (snd b)) bs
    /\ adjacent_differ (map (fun b => speaker_of (snd (fst (fst b)))) bs)
    /\ runs speaker_of ws = map (block_run speaker_of) bs.
Proof.
  induction ws as [| w rest (bs & Hcat & Hhom & Hadj & Hruns)].
  - exists []. repeat split. constructor.
  - cbn [runs]. rewrite Hruns. destruct bs as [| b bs'].
    + exists [(w, [])]. cbn [flat_map block_words fst snd app map merge].
      rewrite block_run_single. rewrite <- Hcat. repeat split.
      constructor; [constructor | constructor].
    + cbn [map merge].
      assert (Hsp : run_speaker (single speaker_of w) = speaker_of (snd (fst w)))
        by (destruct w as [[t s] e]; reflexivity).
      rewrite Hsp. cbn [block_run run_speaker].
      destruct (speaker_neb (speaker_of (snd (fst w)))
                            (speaker_of (snd (fst (fst b))))) eqn:E.
      * exists ((w, []) :: b :: bs').
        cbn [flat_map block_words fst snd app map]. rewrite block_run_single.
        split; [rewrite <- Hcat; reflexivity |].
        split; [constructor; [constructor | exact Hhom] |].
        split; [| reflexivity].
        split; [apply speaker_neb_true; exact E | exact Hadj].
      * apply speaker_neb_false in E.
        exists ((w, block_words b) :: bs').
        cbn [flat_map block_words fst snd app map].
        split; [rewrite <- Hcat; reflexivity |].
        apply Forall_cons_iff in Hhom. destruct Hhom as [Hb Hbs'].
        split.
        { constructor; [| exact Hbs'].
          cbn [snd fst]. constructor; [symmetry; exact E |].
          apply Forall_forall. intros x Hx. rewrite E.
          exact (proj1 (Forall_forall _ _) Hb x Hx). }
        split.
        { cbn [map] in Hadj. destruct bs' as [| b2 bs'']; [exact I |].
          cbn [map adjacent_differ] in Hadj |- *. cbn [fst snd].
          rewrite E. exact Hadj. }
        rewrite block_run_cons. reflexivity.
Qed.

Lemma runs_speaker_word (ws : list (string * Q * Q)) (r : run) :
  In r (runs speaker_of ws) ->
  exists w, In w ws /\ run_speaker r = speaker_of (snd (fst w)).
Proof.
  destruct (runs_blocks ws) as (bs & Hcat & _ & _ & Hruns).
  rewrite Hruns. intros Hin. apply in_map_iff in Hin.
  destruct Hin as (b & <- & Hb).
  exists (fst b). split; [| reflexivity].
  rewrite <- Hcat. apply in_flat_map. exists b. split; [exact Hb |].
  left. reflexivity.
Qed.

Lemma runs_words_nonempty (ws : list (string * Q * Q)) (r : run) :
  In r (runs speaker_of ws) -> nonempty (run_words r) = true.
Proof.
  destruct (runs_blocks ws) as (bs & _ & _ & _ & Hruns).
  rewrite Hruns. intros Hin. apply in_map_iff in Hin.
  destruct Hin as (b & <- & _). reflexivity.
Qed.

Lemma merge_words (r : run) (rs : list run) :
  flat_map run_words
    (filter (fun x => truthy (run_speaker x)) (merge r rs))
  = (if truthy (run_speaker r) then run_words r else [])
    ++ flat_map run_words (filter (fun x => truthy (run_speaker x)) rs).
Proof.
  destruct rs as [| g rest]; cbn [merge].
  - cbn [filter]. destruct (truthy (run_speaker r)); cbn [flat_map];
      rewrite ?app_nil_r; reflexivity.
  - destruct (speaker_neb (run_speaker r) (run_speaker g)) eqn:E.
    + cbn [filter]. destruct (truthy (run_speaker r)); reflexivity.
    + apply speaker_neb_false in E. cbn [filter run_app run_speaker].
      rewrite <- E. destruct (truthy (run_speaker r)); cbn [flat_map run_words].
      * rewrite app_assoc. reflexivity.
      * reflexivity.
Qed.

(** The words of the runs that have a speaker are the words that have a
    speaker, in order. *)
Lemma runs_words (ws : list (string * Q * Q)) :
  flat_map run_words
    (filter (fun r => truthy (run_speaker r)) (runs speaker_of ws))
  = map (fun w => fst (fst w))
        (filter (fun w => truthy (speaker_of (snd (fst w)))) ws).
Proof.
  induction ws as [| w rest IH].
  - reflexivity.
  - cbn [runs filter]. rewrite merge_words, IH.
    destruct w as [[t s] e]. cbn [single run_speaker run_words fst snd].
    destruct (truthy (speaker_of s)); reflexivity.
Qed.

Lemma emit_filter (rs : list run) :
  (forall r, In r rs -> nonempty (run_words r) = true) ->
  flat_map emit rs
  = map run_line (filter (fun r => truthy (run_speaker r)) rs).
Proof.
  induction rs as [| r rest IH]; intros Hne.
  - reflexivity.
  - cbn [flat_map filter]. rewrite IH by (intros x Hx; apply Hne; right; exact Hx).
    unfold emit. rewrite (Hne r (or_introl eq_refl)), andb_true_r.
    destruct (truthy (run_speaker r)); reflexivity.
Qed.

End Blocks.

(** X4: every line of the document stands for a maximal block of adjacent words
    with one speaker: the blocks cut the words (each with the punctuation
    that follows it) in order, all words of a block have the speaker of its
    first word, adjacent blocks have different speakers, and the line of a
    block, written if the speaker is a non-empty label, runs from the start
    of its first word to the end of its last word. *)
Theorem lines_are_maximal_blocks (segs : list SpeakerSegment)
  (toks : list TranscriptItem) :
  let speaker_of := find_speaker (timeline_of segs) in
  exists bs : list block,
    flat_map block_words bs = snd (glue toks)
    /\ Forall (fun b => Forall (fun w => speaker_of (snd (fst w))
                                         = speaker_of (snd (fst (fst b))))
                               (snd b)) bs
    /\ adjacent_differ (map (fun b => speaker_of (snd (fst (fst b)))) bs)
    /\ convert_to_markdown
         (transcript (map encode_item toks) (map encode_segment segs))
       = Ok (document (flat_map (fun b => emit (block_run speaker_of b)) bs)).
Proof.
  intros speaker_of.
  destruct (runs_blocks speaker_of (snd (glue toks)))
    as (bs & Hcat & Hhom & Hadj & Hruns).
  exists bs. split; [exact Hcat |]. split; [exact Hhom |].
  split; [exact Hadj |].
  rewrite convert_runs. unfold transcript_lines. fold speaker_of.
  rewrite Hruns, flat_map_concat_map, map_map, <- flat_map_concat_map.
  reflexivity.
Qed.

Lemma convert_emitted_runs (segs : list SpeakerSegment)
  (toks : list TranscriptItem) :
  convert_to_markdown
    (transcript (map encode_item toks) (map encode_segment segs))
  = Ok (document (map run_line (emitted_runs segs toks))).
Proof.
  rewrite convert_runs. unfold transcript_lines, emitted_runs.
  rewrite emit_filter; [reflexivity |].
  intros r. apply runs_words_nonempty.
Qed.

Lemma emitted_runs_label (segs : list SpeakerSegment)
  (toks : list TranscriptItem) (r : run) :
  In r (emitted_runs segs toks) ->
  exists s, In s segs /\ label s <> ""%string
            /\ run_speaker r = Some (label s).
Proof.
  unfold emitted_runs. intros Hr. apply filter_In in Hr.
  destruct Hr as [Hr T].
  destruct (truthy_Some _ T) as (l & Hl & Hne).
  destruct (runs_speaker_word _ _ r Hr) as (w & _ & Hw).
  destruct (find_speaker_timeline_of segs (snd (fst w))) as [_ Hf].
  rewrite Hf, Hl in Hw. unfold resolved_speaker in Hw.
  destruct (first_containing segs (snd (fst w))) as [x |]; [| discriminate Hw].
  symmetry in Hw.
  destruct (last_with_interval_In segs _ l Hw) as (y & Hy & _ & Hly).
  exists y. split; [exact Hy |]. split; [rewrite Hly; exact Hne |].
  rewrite Hly. exact Hl.
Qed.

(** X5: no word with a speaker is lost and none is repeated or moved: the words
    of the lines of the document, in order, are the words (each with the
    punctuation that follows it) whose speaker is a non-empty label. *)
Theorem attributed_words_conserved (segs : list SpeakerSegment)
  (toks : list TranscriptItem) :
  let speaker_of := find_speaker (timeline_of segs) in
  convert_to_markdown
    (transcript (map encode_item toks) (map encode_segment segs))
  = Ok (document (map run_line (emitted_runs segs toks)))
  /\ flat_map run_words (emitted_runs segs toks)
     = map (fun w => fst (fst w))
           (filter (fun w => truthy (speaker_of (snd (fst w))))
                   (snd (glue toks))).
Proof.
  intros speaker_of. split.
  - apply convert_emitted_runs.
  - apply runs_words.
Qed.

(** X6: every speaker tag of the document is the label of a segment of the
    input, and is not empty. *)
Theorem speaker_tags_from_segments (segs : list SpeakerSegment)
  (toks : list TranscriptItem) :
  convert_to_markdown
    (transcript (map encode_item toks) (map encode_segment segs))
  = Ok (document (map run_line (emitted_runs segs toks)))
  /\ Forall (fun r => exists s, In s segs /\ label s <> ""%string
                                /\ run_speaker r = Some (label s))
            (emitted_runs segs toks).
Proof.
  split.
  - apply convert_emitted_runs.
  - apply Forall_forall. intros r. apply emitted_runs_label.
Qed.

(** ** The figures reported about a transcript *)

Lemma nodup_same_length (l l' : list string) :
  (forall x, In x l <-> In x l') ->
  List.length (nodup string_dec l) = List.length (nodup string_dec l').
Proof.
  intros Hsame. apply Nat.le_antisymm; apply NoDup_incl_length;
    try apply NoDup_nodup; intros x Hx; apply nodup_In; apply nodup_In in Hx;
    apply Hsame; exact Hx.
Qed.

Lemma nodup_length_le (l : list string) :
  (List.length (nodup string_dec l) <= List.length l)%nat.
Proof.
  apply NoDup_incl_length; [apply NoDup_nodup |].
  intros x Hx. apply nodup_In in Hx. exact Hx.
Qed.

(** X7: the number of speakers is the number of distinct labels of the segments
    (a segment without label counting as the label [""]): it is at most the
    number of segments, it is zero exactly when there is no segment, and the
    order and the repetitions of the segments do not matter. *)
Theorem speakers_count_distinct_labels (r r' : results_t) :
  (speakers_count r
   <= List.length
        (get (segments (get (speaker_labels r) {| segments := None |})) []))%nat
  /\ (speakers_count r = 0%nat
      <-> get (segments (get (speaker_labels r) {| segments := None |})) [] = [])
  /\ ((forall l, In l (counted_labels r) <-> In l (counted_labels r')) ->
      speakers_count r = speakers_count r').
Proof.
  unfold speakers_count. split; [| split].
  - pose proof (nodup_length_le (counted_labels r)) as H.
    unfold counted_labels in H at 2. rewrite length_map in H. exact H.
  - unfold counted_labels.
    destruct (get (segments (get (speaker_labels r) {| segments := None |})) [])
      as [| seg rest].
    + split; reflexivity.
    + split; [| discriminate]. intros H0.
      assert (Hin : In (get (speaker_label seg) ""%string)
                       (nodup string_dec
                          (map (fun seg0 => get (speaker_label seg0) ""%string)
                               (seg :: rest))))
        by (apply nodup_In; left; reflexivity).
      destruct (nodup string_dec _); [destruct Hin | discriminate H0].
  - apply nodup_same_length.
Qed.

Lemma speakers_count_distinct_labels_witness :
  speakers_count
    {| items := None;
       speaker_labels :=
         Some {| segments := Some [Segment "spk_0" 0 1; Segment "spk_1" 1 2;
                                   Segment "spk_0" 2 3] |} |}
  = speakers_count
      {| items := None;
         speaker_labels :=
           Some {| segments := Some [Segment "spk_1" 0 1; Segment "spk_0" 1 2] |} |}.
Proof.
  destruct (speakers_count_distinct_labels
              {| items := None;
                 speaker_labels :=
                   Some {| segments := Some [Segment "spk_0" 0 1; Segment "spk_1" 1 2;
                                             Segment "spk_0" 2 3] |} |}
              {| items := None;
                 speaker_labels :=
                   Some {| segments := Some [Segment "spk_1" 0 1;
                                             Segment "spk_0" 1 2] |} |})
    as (_ & _ & H).
  apply H. intros l. simpl. tauto.
Defined.

(** X8: the document never shows more speakers than are counted: the distinct
    speaker tags of its lines are among the counted labels. *)
Theorem document_speakers_counted (segs : list SpeakerSegment)
  (toks : list TranscriptItem) :
  let r := {| items := Some (map encode_item toks);
              speaker_labels :=
                Some {| segments := Some (map encode_segment segs) |} |} in
  let tags := map (fun x => format_speaker (run_speaker x))
                  (emitted_runs segs toks) in
  convert_to_markdown {| results := Some r |}
  = Ok (document (map run_line (emitted_runs segs toks)))
  /\ incl tags (counted_labels r)
  /\ (List.length (nodup string_dec tags) <= speakers_count r)%nat.
Proof.
  intros r tags.
  assert (Hincl : incl tags (counted_labels r)).
  { intros tag Htag. unfold tags in Htag. apply in_map_iff in Htag.
    destruct Htag as (x & <- & Hx).
    destruct (emitted_runs_label segs toks x Hx) as (sg & Hsg & _ & ->).
    unfold counted_labels, r. cbn [speaker_labels segments get format_speaker].
    rewrite map_map. apply in_map_iff. exists sg. split; [reflexivity | exact Hsg]. }
  split; [apply convert_emitted_runs |]. split; [exact Hincl |].
  unfold speakers_count. apply NoDup_incl_length; [apply NoDup_nodup |].
  intros tag Htag. apply nodup_In. apply Hincl. apply nodup_In in Htag.
  exact Htag.
Qed.



(** ** The preview of the markdown file *)





(** ** Decimal numerals *)

Lemma has_char_app (c : ascii) (a b : string) :
  has_char c (a ++ b) = has_char c a || has_char c b.
Proof.
  induction a as [| c' rest IH]; simpl.
  - reflexivity.
  - rewrite IH, orb_assoc. reflexivity.
Qed.

Lemma string_of_uint_digits (d : Decimal.uint) (c : ascii) :
  has_char c (NilEmpty.string_of_uint d) = true -> is_digit c = true.
Proof.
  induction d as [| d IH | d IH | d IH | d IH | d IH | d IH | d IH | d IH
                  | d IH | d IH]; cbn [NilEmpty.string_of_uint has_char];
    try discriminate;
    intros H; apply orb_true_iff in H; destruct H as [H | H];
    try (apply IH; exact H);
    apply Ascii.eqb_eq in H; subst c; reflexivity.
Qed.

Lemma string_of_pos_digits (p : positive) (c : ascii) :
  has_char c (NilZero.string_of_uint (Pos.to_uint p)) = true ->
  is_digit c = true.
Proof.
  unfold NilZero.string_of_uint.
  destruct (Pos.to_uint p) eqn:E;
    try (rewrite <- E; apply string_of_uint_digits).
  exfalso. exact (DecimalPos.Unsigned.to_uint_nonnil p E).
Qed.

(** The numeral of an integer is made of digits, after a minus sign for a
    negative one. *)
Lemma str_int_chars (n : Z) (c : ascii) :
  has_char c (str_int n) = true ->
  is_digit c = true \/ ((n < 0)%Z /\ c = "-"%char).
Proof.
  unfold str_int. destruct n as [| p | p];
    cbn [Z.to_int NilZero.string_of_int].
  - change (NilZero.string_of_uint (Decimal.D0 Decimal.Nil)) with "0"%string.
    cbn [has_char]. intros H. apply orb_true_iff in H.
    destruct H as [H | H]; [| discriminate H].
    apply Ascii.eqb_eq in H. subst c. left. reflexivity.
  - intros H. left. exact (string_of_pos_digits p c H).
  - cbn [has_char]. intros H. apply orb_true_iff in H. destruct H as [H | H].
    + apply Ascii.eqb_eq in H. right. split; [lia | symmetry; exact H].
    + left. exact (string_of_pos_digits p c H).
Qed.

Lemma str_int_inj (a b : Z) : str_int a = str_int b -> a = b.
Proof.
  unfold str_int. intros H.
  assert (Hnn : forall z, Z.to_int z <> Decimal.Pos Decimal.Nil
                          /\ Z.to_int z <> Decimal.Neg Decimal.Nil).
  { intros [| p | p]; simpl; split; try discriminate;
      intros [= E]; exact (DecimalPos.Unsigned.to_uint_nonnil p E). }
  pose proof (NilZero.isi (Z.to_int a) (proj1 (Hnn a)) (proj2 (Hnn a))) as Ha.
  pose proof (NilZero.isi (Z.to_int b) (proj1 (Hnn b)) (proj2 (Hnn b))) as Hb.
  rewrite H, Hb in Ha. injection Ha as Hab.
  rewrite <- (DecimalZ.of_to a), <- (DecimalZ.of_to b), Hab. reflexivity.
Qed.

(** ** Job names *)

Lemma string_app_inv_head (p a b : string) :
  (p ++ a = p ++ b)%string -> a = b.
Proof.
  induction p as [| c rest IH]; simpl.
  - exact (fun H => H).
  - intros [= H]. exact (IH H).
Qed.

Lemma has_char_app_sep (sep : ascii) (x y : string) :
  has_char sep (x ++ String sep y) = true.
Proof.
  rewrite has_char_app. simpl. rewrite Ascii.eqb_refl, orb_true_r.
  reflexivity.
Qed.

(** A string is cut in one way only at its last separator. *)
Lemma app_last_sep_inj (sep : ascii) (s1 : string) :
  forall s2 d1 d2 : string,
    has_char sep d1 = false -> has_char sep d2 = false ->
    (s1 ++ String sep d1 = s2 ++ String sep d2)%string ->
    s1 = s2 /\ d1 = d2.
Proof.
  induction s1 as [| c rest IH]; intros s2 d1 d2 H1 H2 Heq.
  - destruct s2 as [| c2 rest2]; simpl in Heq.
    + injection Heq as ->. split; reflexivity.
    + injection Heq as _ Hd. rewrite Hd, has_char_app_sep in H1.
      discriminate H1.
  - destruct s2 as [| c2 rest2]; simpl in Heq.
    + injection Heq as _ Hd. rewrite <- Hd, has_char_app_sep in H2.
      discriminate H2.
    + injection Heq as -> Hrest.
      destruct (IH rest2 d1 d2 H1 H2 Hrest) as [-> ->].
      split; reflexivity.
Qed.

Lemma str_int_no_minus (n : Z) :
  (0 <= n)%Z -> has_char "-"%char (str_int n) = false.
Proof.
  intros Hn. destruct (has_char "-"%char (str_int n)) eqn:H; [| reflexivity].
  destruct (str_int_chars n _ H) as [Hd | [Hneg _]].
  - discriminate Hd.
  - lia.
Qed.

(** X11: a job name that is given and not empty is kept; an absent or empty one
    is replaced by [transcribe-<stem>-<timestamp>], and two such names are
    equal only for the same stem and the same (non-negative) timestamp. *)
Theorem default_job_name_kept_or_fresh (stem1 stem2 : string) (t1 t2 : Z) :
  (forall given : string,
      given <> ""%string -> default_job_name (Some given) stem1 t1 = given)
  /\ default_job_name (Some ""%string) stem1 t1 = default_job_name None stem1 t1
  /\ ((0 <= t1)%Z -> (0 <= t2)%Z ->
      default_job_name None stem1 t1 = default_job_name None stem2 t2 ->
      stem1 = stem2 /\ t1 = t2).
Proof.
  split; [| split].
  - intros given Hne. unfold default_job_name.
    apply String.eqb_neq in Hne. rewrite Hne. reflexivity.
  - reflexivity.
  - intros H1 H2 Heq. unfold default_job_name in Heq.
    apply (string_app_inv_head "transcribe-") in Heq.
    change (stem1 ++ String "-"%char (str_int t1)
            = stem2 ++ String "-"%char (str_int t2))%string in Heq.
    destruct (app_last_sep_inj "-"%char stem1 stem2 _ _
                (str_int_no_minus t1 H1) (str_int_no_minus t2 H2) Heq)
      as [Hs Ht].
    split; [exact Hs | apply str_int_inj; exact Ht].
Qed.

Lemma default_job_name_kept_or_fresh_witness :
  default_job_name (Some "weekly-sync"%string) "meeting" 1700000000
  = "weekly-sync"%string.
Proof.
  destruct (default_job_name_kept_or_fresh "meeting" "meeting"
              1700000000 1700000000) as (H & _).
  apply H. discriminate.
Defined.

(** ** Line breaks in the document *)








(** ** Running a transcription job *)

Section TranscriptionJob.

Variable job_name : string.

Lemma wait_in_progress (job_status : job_response) (later : list job_response) :
  in_progress job_status ->
  wait_for_completion job_name (job_status :: later)
  = (get_transcription_job job_name :: sleep 10
       :: fst (wait_for_completion job_name later),
     snd (wait_for_completion job_name later)).
Proof.
  intros (status & Hs & Hc & Hf). cbn [wait_for_completion]. rewrite Hs.
  apply String.eqb_neq in Hc, Hf. rewrite Hc, Hf.
  destruct (wait_for_completion job_name later). reflexivity.
Qed.

Lemma wait_app (waiting later : list job_response) :
  Forall in_progress waiting ->
  wait_for_completion job_name (waiting ++ later)
  = (poll_again job_name waiting ++ fst (wait_for_completion job_name later),
     snd (wait_for_completion job_name later)).
Proof.
  intros Hall. induction Hall as [| job_status rest Hj _ IH].
  - cbn [app poll_again flat_map].
    destruct (wait_for_completion job_name later). reflexivity.
  - change ((job_status :: rest) ++ later) with (job_status :: (rest ++ later)).
    rewrite (wait_in_progress job_status _ Hj), IH. reflexivity.
Qed.

(** The loop only asks for the status and sleeps ten seconds. *)
Lemma wait_calls (responses : list job_response) :
  Forall (fun c => c = get_transcription_job job_name \/ c = sleep 10)
         (fst (wait_for_completion job_name responses)).
Proof.
  induction responses as [| job_status later IH]; cbn [wait_for_completion].
  - constructor.
  - destruct (job_state job_status) as [status |].
    + destruct (status =? "COMPLETED")%string;
        [constructor; [left; reflexivity | constructor] |].
      destruct (status =? "FAILED")%string;
        [constructor; [left; reflexivity | constructor] |].
      destruct (wait_for_completion job_name later) as [calls result].
      cbn [fst] in *. constructor; [left; reflexivity |].
      constructor; [right; reflexivity | exact IH].
    + constructor; [left; reflexivity | constructor].
Qed.

End TranscriptionJob.

(** X12: when the job completes after some rounds of waiting, the function
    returns the downloaded result, and its calls are, in order: the upload,
    the start of the job on the uploaded object, one status request and a
    sleep of ten seconds for each response that keeps it waiting, the last
    status request, the download of the key the job was told to write, the
    removal of the two objects, and the reading of the file.  Responses after
    the completion are not asked for. *)
Theorem transcribe_audio_completes {A : Type} (audio_file : path)
  (bucket job_name : string) (max_speakers : Z)
  (waiting later : list job_response) (done : job_response) (downloaded : A) :
  Forall in_progress waiting ->
  job_state done = Ok "COMPLETED"%string ->
  transcribe_audio audio_file bucket job_name max_speakers
    (waiting ++ done :: later) downloaded
  = ([ upload_file audio_file bucket (s3_key job_name audio_file);
       start_transcription_job job_name "en-US"
         ("s3://" ++ bucket ++ "/" ++ s3_key job_name audio_file)%string
         true max_speakers bucket (output_key job_name) ]
     ++ poll_again job_name waiting
     ++ [ get_transcription_job job_name;
          download_file bucket (output_key job_name) (transcript_json audio_file);
          delete_object bucket (s3_key job_name audio_file);
          delete_object bucket (output_key job_name);
          json_load (transcript_json audio_file) ],
     Returned downloaded).
Proof.
  intros Hwait Hdone. unfold transcribe_audio.
  rewrite (wait_app job_name waiting (done :: later) Hwait).
  cbn [wait_for_completion]. rewrite Hdone. cbn [String.eqb fst snd].
  rewrite <- !app_assoc. reflexivity.
Qed.

Lemma transcribe_audio_completes_witness :
  let audio := {| path_parent := "/tmp/meeting"; path_name := "audio.mp3" |} in
  let status s := {| TranscriptionJob :=
                       Some {| TranscriptionJobStatus := Some s;
                               FailureReason := None |} |} in
  snd (transcribe_audio audio "bucket" "job-1" 10
         ([status "QUEUED"%string; status "IN_PROGRESS"%string]
          ++ status "COMPLETED"%string :: [])
         (transcript [] []))
  = Returned (transcript [] []).
Proof.
  intros audio status.
  rewrite (transcribe_audio_completes audio "bucket" "job-1" 10
             [status "QUEUED"%string; status "IN_PROGRESS"%string] []
             (status "COMPLETED"%string)).
  - reflexivity.
  - repeat constructor.
    + exists "QUEUED"%string. repeat split; discriminate.
    + exists "IN_PROGRESS"%string. repeat split; discriminate.
  - reflexivity.
Defined.

(** X13: when the job fails, the function raises [RuntimeError] with the reason
    given by the service, or "Unknown error" when there is none, right after
    the status request that shows the failure: nothing is downloaded and
    nothing is removed, so the uploaded audio stays in the bucket. *)
Theorem transcribe_audio_failure_keeps_upload {A : Type} (audio_file : path)
  (bucket job_name : string) (max_speakers : Z)
  (waiting later : list job_response) (failed : job_response) (downloaded : A) :
  Forall in_progress waiting ->
  job_state failed = Ok "FAILED"%string ->
  let run := transcribe_audio audio_file bucket job_name max_speakers
               (waiting ++ failed :: later) downloaded in
  run = ([ upload_file audio_file bucket (s3_key job_name audio_file);
           start_transcription_job job_name "en-US"
             (s3_uri bucket job_name audio_file) true max_speakers
             bucket (output_key job_name) ]
         ++ poll_again job_name waiting ++ [get_transcription_job job_name],
         Failed (RuntimeError
                   ("Transcription failed: " ++ failure_reason failed)%string))
  /\ existsb removes (fst run) = false
  /\ existsb fetches (fst run) = false
  /\ ((forall job, TranscriptionJob failed = Some job ->
                   FailureReason job = None) ->
      snd run = Failed (RuntimeError "Transcription failed: Unknown error"%string)).
Proof.
  intros Hwait Hfailed run.
  assert (Hrun : run
    = ([ upload_file audio_file bucket (s3_key job_name audio_file);
         start_transcription_job job_name "en-US"
           (s3_uri bucket job_name audio_file) true max_speakers
           bucket (output_key job_name) ]
       ++ poll_again job_name waiting ++ [get_transcription_job job_name],
       Failed (RuntimeError
                 ("Transcription failed: " ++ failure_reason failed)%string))).
  { unfold run, transcribe_audio.
    rewrite (wait_app job_name waiting (failed :: later) Hwait).
    cbn [wait_for_completion]. rewrite Hfailed. cbn [String.eqb fst snd].
    reflexivity. }
  assert (Hquiet : forall c,
             In c (poll_again job_name waiting ++ [get_transcription_job job_name]) ->
             removes c = false /\ fetches c = false).
  { intros c Hc. apply in_app_or in Hc. destruct Hc as [Hc | [<- | []]].
    - unfold poll_again in Hc. apply in_flat_map in Hc.
      destruct Hc as (_ & _ & [<- | [<- | []]]); split; reflexivity.
    - split; reflexivity. }
  split; [exact Hrun |]. rewrite Hrun. cbn [fst snd]. split; [| split].
  - cbn [app existsb removes orb].
    destruct (existsb removes _) eqn:E; [| reflexivity].
    apply existsb_exists in E. destruct E as (c & Hc & Hr).
    destruct (Hquiet c Hc) as [Hr' _]. congruence.
  - cbn [app existsb fetches orb].
    destruct (existsb fetches _) eqn:E; [| reflexivity].
    apply existsb_exists in E. destruct E as (c & Hc & Hr).
    destruct (Hquiet c Hc) as [_ Hr']. congruence.
  - intros Hnone. unfold failure_reason.
    destruct (TranscriptionJob failed) as [job |]; [| reflexivity].
    rewrite (Hnone job eq_refl). reflexivity.
Qed.

Lemma transcribe_audio_failure_keeps_upload_witness :
  let audio := {| path_parent := "/tmp/meeting"; path_name := "audio.mp3" |} in
  let status s := {| TranscriptionJob :=
                       Some {| TranscriptionJobStatus := Some s;
                               FailureReason := None |} |} in
  snd (transcribe_audio audio "bucket" "job-1" 10
         ([status "IN_PROGRESS"%string] ++ status "FAILED"%string :: [])
         (transcript [] []))
  = Failed (RuntimeError "Transcription failed: Unknown error"%string).
Proof.
  intros audio status.
  destruct (transcribe_audio_failure_keeps_upload audio "bucket" "job-1" 10
              [status "IN_PROGRESS"%string] [] (status "FAILED"%string)
              (transcript [] [])) as (_ & _ & _ & H).
  - repeat constructor. exists "IN_PROGRESS"%string.
    repeat split; discriminate.
  - reflexivity.
  - apply H. intros job [= <-]. reflexivity.
Defined.

Lemma polls_quiet (job_name : string) (responses : list job_response) (c : call) :
  In c (fst (wait_for_completion job_name responses)) ->
  removes c = false /\ fetches c = false
  /\ (forall n, c = sleep n -> n = 10%Z).
Proof.
  intros Hc.
  destruct (proj1 (Forall_forall _ _) (wait_calls job_name responses) c Hc)
    as [-> | ->].
  - repeat split. intros n H. discriminate H.
  - repeat split. intros n [= <-]. reflexivity.
Qed.

(** X14: whatever the service answers: the function removes objects from the
    bucket only when it returns, and then only the uploaded audio and the
    result of the job, which are two different keys; and it never sleeps
    for anything but ten seconds. *)
Theorem transcribe_audio_cleanup_only_on_return {A : Type} (audio_file : path)
  (bucket job_name : string) (max_speakers : Z)
  (responses : list job_response) (downloaded : A) :
  let run := transcribe_audio audio_file bucket job_name max_speakers
               responses downloaded in
  (existsb removes (fst run) = true <-> snd run = Returned downloaded)
  /\ (existsb fetches (fst run) = true <-> snd run = Returned downloaded)
  /\ (forall b k, In (delete_object b k) (fst run) ->
                  b = bucket
                  /\ (k = s3_key job_name audio_file \/ k = output_key job_name))
  /\ (forall n, In (sleep n) (fst run) -> n = 10%Z)
  /\ s3_key job_name audio_file <> output_key job_name.
Proof.
  intros run.
  assert (Hin : forall c, In c (fst run) ->
            c = upload_file audio_file bucket (s3_key job_name audio_file)
            \/ c = start_transcription_job job_name "en-US"
                     (s3_uri bucket job_name audio_file) true max_speakers
                     bucket (output_key job_name)
            \/ In c (fst (wait_for_completion job_name responses))
            \/ (snd run = Returned downloaded
                /\ In c [ download_file bucket (output_key job_name)
                            (transcript_json audio_file);
                          delete_object bucket (s3_key job_name audio_file);
                          delete_object bucket (output_key job_name);
                          json_load (transcript_json audio_file) ])).
  { intros c. unfold run, transcribe_audio.
    destruct (wait_for_completion job_name responses) as [polls [[] | f |]];
      cbn [fst snd app]; intros [<- | [<- | Hc]]; auto;
      try (apply in_app_or in Hc; destruct Hc as [Hc | Hc]); auto 6. }
  assert (Hnot : snd run <> Returned downloaded ->
                 forall c, In c (fst run) ->
                           removes c = false /\ fetches c = false).
  { intros Hn c Hc. destruct (Hin c Hc) as [-> | [-> | [Hp | [Hr _]]]].
    - split; reflexivity.
    - split; reflexivity.
    - destruct (polls_quiet job_name responses c Hp) as (H1 & H2 & _). auto.
    - contradiction. }
  assert (Hret : snd run = Returned downloaded ->
                 existsb removes (fst run) = true
                 /\ existsb fetches (fst run) = true).
  { unfold run, transcribe_audio.
    destruct (wait_for_completion job_name responses) as [polls [[] | f |]];
      cbn [fst snd app]; try discriminate.
    intros _. split; apply existsb_exists.
    - exists (delete_object bucket (output_key job_name)).
      split; [| reflexivity]. cbn [In]. right. right. apply in_or_app. right.
      cbn [In]. auto.
    - exists (download_file bucket (output_key job_name)
                (transcript_json audio_file)).
      split; [| reflexivity]. cbn [In]. right. right. apply in_or_app. right.
      cbn [In]. auto. }
  split; [| split; [| split; [| split]]].
  - split; [| intros H; apply Hret, H].
    intros E. apply existsb_exists in E. destruct E as (c & Hc & Hr).
    destruct (Hin c Hc) as [-> | [-> | [Hp | [Hd _]]]];
      try discriminate Hr; [| exact Hd].
    destruct (polls_quiet job_name responses c Hp) as (H1 & _). congruence.
  - split; [| intros H; apply Hret, H].
    intros E. apply existsb_exists in E. destruct E as (c & Hc & Hr).
    destruct (Hin c Hc) as [-> | [-> | [Hp | [Hd _]]]];
      try discriminate Hr; [| exact Hd].
    destruct (polls_quiet job_name responses c Hp) as (_ & H2 & _). congruence.
  - intros b k Hc.
    destruct (Hin _ Hc) as [H | [H | [Hp | [_ Hl]]]]; try discriminate H.
    + destruct (polls_quiet job_name responses _ Hp) as (H1 & _).
      discriminate H1.
    + destruct Hl as [H | [H | [H | [H | []]]]]; try discriminate H;
        injection H as <- <-; auto.
  - intros n Hc.
    destruct (Hin _ Hc) as [H | [H | [Hp | [_ Hl]]]]; try discriminate H.
    + destruct (polls_quiet job_name responses _ Hp) as (_ & _ & H3).
      apply H3. reflexivity.
    + destruct Hl as [H | [H | [H | [H | []]]]]; discriminate H.
  - unfold s3_key, output_key. discriminate.
Qed.

(** X15: the loop has no bound: as long as every response has a status other
    than [COMPLETED] and [FAILED], the function keeps asking every ten
    seconds and neither returns nor raises. *)
Theorem transcribe_audio_no_timeout {A : Type} (audio_file : path)
  (bucket job_name : string) (max_speakers : Z)
  (responses : list job_response) (downloaded : A) :
  Forall in_progress responses ->
  transcribe_audio audio_file bucket job_name max_speakers responses downloaded
  = ([ upload_file audio_file bucket (s3_key job_name audio_file);
       start_transcription_job job_name "en-US"
         (s3_uri bucket job_name audio_file) true max_speakers
         bucket (output_key job_name) ]
     ++ poll_again job_name responses,
     Polling)
  /\ List.length (poll_again job_name responses)
     = (2 * List.length responses)%nat.
Proof.
  intros Hall. split.
  - unfold transcribe_audio.
    pose proof (wait_app job_name responses [] Hall) as H.
    rewrite app_nil_r in H. rewrite H. cbn [wait_for_completion fst snd].
    rewrite app_nil_r. reflexivity.
  - unfold poll_again. clear Hall.
    induction responses as [| r rest IH]; cbn [flat_map app List.length].
    + reflexivity.
    + rewrite IH. lia.
Qed.

Lemma transcribe_audio_no_timeout_witness :
  let audio := {| path_parent := "/tmp/meeting"; path_name := "audio.mp3" |} in
  let status s := {| TranscriptionJob :=
                       Some {| TranscriptionJobStatus := Some s;
                               FailureReason := None |} |} in
  snd (transcribe_audio audio "bucket" "job-1" 10
         [status "IN_PROGRESS"%string; status "completed"%string]
         (transcript [] []))
  = Polling.
Proof.
  intros audio status.
  destruct (transcribe_audio_no_timeout audio "bucket" "job-1" 10
              [status "IN_PROGRESS"%string; status "completed"%string]
              (transcript [] [])) as [H _].
  - repeat constructor.
    + exists "IN_PROGRESS"%string. repeat split; discriminate.
    + exists "completed"%string. repeat split; discriminate.
  - rewrite H. reflexivity.
Defined.

(** X16: [transcribe_audio_cli] uploads the audio itself before it calls
    [transcribe_audio], which uploads it again: the run starts with the same
    upload twice.  Any failure leaves it as [click.Abort]; on success the
    result is written back to the file it was downloaded to, and that path
    is returned. *)
Theorem cli_uploads_twice {A : Type} (audio_file : path)
  (bucket job_name : string) (max_speakers : Z)
  (responses : list job_response) (downloaded : A) :
  let run := transcribe_audio_cli audio_file bucket job_name max_speakers
               responses downloaded in
  (exists rest,
      fst run = upload_file audio_file bucket (s3_key job_name audio_file)
                :: upload_file audio_file bucket (s3_key job_name audio_file)
                :: rest)
  /\ (forall f, snd run = Failed f -> f = Abort)
  /\ (forall output_file,
         snd run = Returned output_file ->
         output_file = transcript_json audio_file
         /\ In (download_file bucket (output_key job_name) output_file) (fst run)
         /\ List.last (fst run) (sleep 0) = json_dump output_file).
Proof.
  intros run. unfold run, transcribe_audio_cli, transcribe_audio.
  destruct (wait_for_completion job_name responses) as [polls [[] | f |]];
    cbn [fst snd app].
  - split; [eexists; reflexivity |]. split; [discriminate |].
    intros output_file [= <-]. split; [reflexivity |]. split.
    + cbn [In]. right. right. right. apply in_or_app. left.
      apply in_or_app. right. cbn [In]. auto.
    + rewrite app_comm_cons, app_comm_cons, app_comm_cons.
      apply last_last.
  - split; [eexists; reflexivity |]. split; [| discriminate].
    intros f' [= <-]. reflexivity.
  - split; [eexists; reflexivity |]. split; discriminate.
Qed.




Lemma transcribe_audio_cleanup_only_on_return_witness :
  let audio := {| path_parent := "/tmp/meeting"; path_name := "audio.mp3" |} in
  let completed := {| TranscriptionJob :=
                        Some {| TranscriptionJobStatus := Some "COMPLETED"%string;
                                FailureReason := None |} |} in
  existsb removes
    (fst (transcribe_audio audio "bucket" "job-1" 10 [completed]
            (transcript [] [])))
  = true.
Proof.
  intros audio completed.
  destruct (transcribe_audio_cleanup_only_on_return audio "bucket" "job-1" 10
              [completed] (transcript [] [])) as ([_ H] & _).
  apply H. reflexivity.
Defined.

Lemma cli_uploads_twice_witness :
  let audio := {| path_parent := "/tmp/meeting"; path_name := "audio.mp3" |} in
  let completed := {| TranscriptionJob :=
                        Some {| TranscriptionJobStatus := Some "COMPLETED"%string;
                                FailureReason := None |} |} in
  List.last
    (fst (transcribe_audio_cli audio "bucket" "job-1" 10 [completed]
            (transcript [] [])))
    (sleep 0)
  = json_dump (transcript_json audio).
Proof.
  intros audio completed.
  destruct (cli_uploads_twice audio "bucket" "job-1" 10 [completed]
              (transcript [] [])) as (_ & _ & H).
  destruct (H (transcript_json audio)) as (_ & _ & Hl).
  - reflexivity.
  - exact Hl.
Defined.
